(** * qBittorrent orphaned files cleaner: a shallow embedding

    The development follows [qbittorrent-orphan-cleaner.py]:
    - the path functions of [os.path] the script calls (POSIX flavour),
    - [scan_torrents]: the set of active files built from the daemon's
      answer, then the walk of the download directory,
    - the part of [main] after the scan: sort, report file, deletion.

    Paths are Python [str] values, modelled as [string]; sets of paths are
    [gset string]; file sizes and counters are unbounded Python integers
    that never go below zero, modelled as [N]. *)

From Stdlib Require Import NArith Ascii String.
From stdpp Require Import gmap strings pretty list sorting.

#[local] Set Warnings "-clear-no-such-hyp".
#[local] Set Warnings "-register-all".
#[local] Set Warnings "-level-tolerance".


(** ** Path functions ([posixpath]) *)

Module Path.

Definition sep : ascii := "/"%char.

Definition is_sep (c : ascii) : bool := bool_decide (c = sep).

(** [s.startswith('/')] *)
Definition starts_with_sep (s : string) : bool :=
  match s with
  | String c _ => is_sep c
  | EmptyString => false
  end.

(** [s.endswith('/')] *)
Fixpoint ends_with_sep (s : string) : bool :=
  match s with
  | EmptyString => false
  | String c EmptyString => is_sep c
  | String _ r => ends_with_sep r
  end.

(** [os.path.join(a, b)] with two arguments:
    [if b.startswith(sep): path = b
     elif not path or path.endswith(sep): path += b
     else: path += sep + b]. *)
Definition join (a b : string) : string :=
  if starts_with_sep b then b
  else if bool_decide (a = "") || ends_with_sep a then a +:+ b
  else a +:+ String sep b.

(** Drops the longest suffix of [s] whose characters all satisfy [f]. *)
Fixpoint rstrip_while (f : ascii -> bool) (s : string) : string :=
  match s with
  | EmptyString => EmptyString
  | String c r =>
      match rstrip_while f r with
      | EmptyString => if f c then EmptyString else String c EmptyString
      | r' => String c r'
      end
  end.

(** [head == sep*len(head)] *)
Fixpoint all_sep (s : string) : bool :=
  match s with
  | EmptyString => true
  | String c r => is_sep c && all_sep r
  end.

(** [os.path.dirname(p)]:
    [i = p.rfind(sep) + 1; head = p[:i]
     if head and head != sep*len(head): head = head.rstrip(sep)].
    [p[:p.rfind(sep)+1]] is [p] without its trailing characters other
    than [sep]. *)
Definition dirname (p : string) : string :=
  let head := rstrip_while (fun c => negb (is_sep c)) p in
  if negb (bool_decide (head = "")) && negb (all_sep head)
  then rstrip_while is_sep head
  else head.

End Path.

(** ** The daemon's answer and the directory tree *)

(** One torrent as [scan_torrents] reads it: [torrent.name],
    [torrent.save_path] and [torrent.files], whose access raises when the
    daemon cannot give the file list ([None]); each file is read through
    [file.name] only. *)
Record torrent := Torrent {
  name : string;
  save_path : string;
  files : option (list string)
}.

(** What [os.walk] finds at a directory: the entries that are not
    directories, each with what [os.path.getsize] will answer ([None]: it
    raises [OSError]), and the sub-directories by name.  A directory that
    cannot be listed is skipped by [os.walk] without an error (its
    [onerror] is unset), as is a link to a directory. *)
#[local] Unset Elimination Schemes.
Inductive tree :=
| Dir (entries : list (string * option N)) (subdirs : list (string * tree))
| Unlistable.
#[local] Set Elimination Schemes.

(** What lies at [download_dir]. *)
Inductive target :=
| Missing            (* [os.path.exists(download_dir)] is false *)
| NotADirectory      (* it exists, [os.walk] has nothing to list *)
| Directory (t : tree).

(** Diagnostics the script prints (progress lines are left out). *)
Inductive diag :=
| WarnTorrentFiles (torrent_name : string)  (* Warning: Could not get files for torrent *)
| ErrTorrentInfo                            (* ERROR: Failed to retrieve torrent information *)
| ErrNoDirectory (dir : string)             (* ERROR: Directory ... does not exist! *)
| WarnAccess (path : string)                (* Warning: Cannot access file *)
| WarnReport                                (* Warning: Could not save report file *)
| ErrDelete (path : string)                 (* Error deleting ... *)
| ErrScan                                   (* ERROR: Failed to scan directory *)
| ErrUnexpected.                            (* Unexpected error (the handler around [main]) *)

(** A computation that may loop forever. *)
Inductive run (A : Type) :=
| Hangs
| Returns (a : A).
Arguments Hangs {A}.
Arguments Returns {A} a.

#[export] Instance run_ret : MRet run := fun A a => Returns a.
#[export] Instance run_bind : MBind run := fun A B k m =>
  match m with
  | Hangs => Hangs
  | Returns a => k a
  end.

(** One pass of a loop body that may raise: the state to go on with, or
    the state in which the exception leaves the loop. *)
Inductive step (S : Type) :=
| Next (st : S)
| Raised (st : S).
Arguments Next {S} st.
Arguments Raised {S} st.

(** [for x in xs: st = body(st, x)], left at the first pass that raises. *)
Fixpoint for_each_step {A S} (body : S -> A -> step S) (st : S) (xs : list A) : step S :=
  match xs with
  | [] => Next st
  | x :: xs' =>
      match body st x with
      | Next st' => for_each_step body st' xs'
      | Raised st' => Raised st'
      end
  end.

(** [for x in xs: st = body(st, x)], where the body may loop forever. *)
Fixpoint for_each {A S} (body : S -> A -> run S) (st : S) (xs : list A) : run S :=
  match xs with
  | [] => Returns st
  | x :: xs' => st' ← body st x; for_each body st' xs'
  end.

(** ** [scan_torrents], first half: the active files *)

(** The state of the first loop: [active_files], [active_dirs] and what
    has been printed. *)
Record live := Live {
  active_files : gset string;
  active_dirs : gset string;
  printed : list diag
}.

(** One pass of the body of
    [while parent and parent != save_path:
       active_dirs.add(parent); parent = os.path.dirname(parent)]
    on the pair [(parent, active_dirs)]; [None] when the condition is false
    and the loop is left. *)
Definition parents_body (save_path : string) (st : string * gset string)
  : option (string * gset string) :=
  let '(parent, dirs) := st in
  if bool_decide (parent = "") || bool_decide (parent = save_path) then None
  else Some (Path.dirname parent, {[parent]} ∪ dirs).

(** The loop run for at most [n] passes: the set it leaves with, if it has
    left by then. *)
Fixpoint parents_within (n : nat) (save_path : string) (st : string * gset string)
  : option (gset string) :=
  match parents_body save_path st with
  | None => Some (snd st)
  | Some st' =>
      match n with
      | 0 => None
      | S k => parents_within k save_path st'
      end
  end.

(** The loop as a function.  [os.path.dirname] either shortens its
    argument or gives it back; in the second case the pass changes neither
    [parent] nor, from the second pass on, [active_dirs], and the loop never
    leaves ([track_parents_within] and [parents_within_never] below relate
    this to [parents_within]).  [fuel] counts the passes that shorten [parent]. *)
Fixpoint track_parents (fuel : nat) (save_path parent : string)
    (dirs : gset string) : run (gset string) :=
  if bool_decide (parent = "") || bool_decide (parent = save_path)
  then Returns dirs
  else
    let up := Path.dirname parent in
    if bool_decide (up = parent) then Hangs
    else match fuel with
         | 0 => Hangs
         | S k => track_parents k save_path up ({[parent]} ∪ dirs)
         end.

(** The body of [for file in torrent_files]. *)
Definition track_file (save_path : string) (st : gset string * gset string)
    (file_name : string) : run (gset string * gset string) :=
  let file_path := Path.join save_path file_name in
  let files' := {[file_path]} ∪ fst st in
  let parent := Path.dirname file_path in
  dirs' ← track_parents (String.length parent) save_path parent (snd st);
  Returns (files', dirs').

(** The body of [for i, torrent in enumerate(torrents)]: the inner [try]
    covers the access to [torrent.files] and the loop over it. *)
Definition track_torrent (st : live) (t : torrent) : run live :=
  match files t with
  | None =>
      Returns (Live (active_files st) (active_dirs st)
                 (printed st ++ [WarnTorrentFiles (name t)]))
  | Some torrent_files =>
      fd ← for_each (track_file (save_path t))
             (active_files st, active_dirs st) torrent_files;
      Returns (Live (fst fd) (snd fd) (printed st))
  end.

Definition build_live (torrents : list torrent) : run live :=
  for_each track_torrent (Live ∅ ∅ []) torrents.

(** ** [scan_torrents], second half: the walk *)

(** [for root, dirs, files in os.walk(top)], top down: the files of [top]
    first, then each sub-directory in turn under [os.path.join(top, d)];
    every file comes as [os.path.join(root, file)]. *)
Fixpoint walk (root : string) (t : tree) : list (string * option N) :=
  match t with
  | Unlistable => []
  | Dir entries subdirs =>
      map (fun e => (Path.join root (fst e), snd e)) entries
      ++ flat_map (fun d => walk (Path.join root (fst d)) (snd d)) subdirs
  end.

(** The state of the second loop. *)
Record scan := Scan {
  orphaned_files : list (string * N);
  total_orphaned_size : N;
  warned : list diag
}.

Section Stdout.

(** Whether [print] can write a string to the terminal; it raises
    [UnicodeEncodeError] when it cannot.  What the script prints is plain
    text, texts typed at the terminal or sent by the daemon, and paths built
    from the names [os.walk] reads in the directory; only these names can
    hold what the terminal cannot encode (bytes that are no text, which
    Python keeps as lone surrogates), so [print] is asked about the path it
    is given and the other prints are taken to succeed. *)
Variable stdout_encodes : string -> bool.

(** The body of [for file in files], on [full_path] and the answer of
    [os.path.getsize(full_path)].  In the [except OSError] branch the
    warning is printed before the entry is appended: when the [print]
    raises, the pass is left with neither done. *)
Definition classify (active : gset string) (st : scan) (f : string * option N)
  : step scan :=
  let '(full_path, size) := f in
  if bool_decide (full_path ∈ active) then Next st
  else match size with
       | Some file_size =>
           Next (Scan (orphaned_files st ++ [(full_path, file_size)])
                      (total_orphaned_size st + file_size)%N
                      (warned st))
       | None =>
           if stdout_encodes full_path then
             Next (Scan (orphaned_files st ++ [(full_path, 0%N)])
                        (total_orphaned_size st)
                        (warned st ++ [WarnAccess full_path]))
           else Raised st
       end.

Definition walk_target (download_dir : string) (tg : target) : list (string * option N) :=
  match tg with
  | Directory t => walk download_dir t
  | _ => []
  end.

(** [scan_torrents(qbt_client, download_dir)].  [info] is the answer of
    [qbt_client.torrents_info()] ([None]: it raises), [tg] what lies at
    [download_dir].  The result is the returned pair, [None] for
    [(None, None)], and what was printed.  [os.walk] reports no error and
    the [OSError] of [os.path.getsize] is caught inside the loop; what
    reaches the [except Exception] clause around the walk is the
    [UnicodeEncodeError] of the warning, which is no [OSError]: the clause
    prints its error and [(None, None)] is returned. *)
Definition scan_torrents (info : option (list torrent)) (download_dir : string)
    (tg : target) : run (option (list (string * N) * N) * list diag) :=
  match info with
  | None => Returns (None, [ErrTorrentInfo])
  | Some torrents =>
      lv ← build_live torrents;
      match tg with
      | Missing =>
          Returns (Some ([], 0%N), printed lv ++ [ErrNoDirectory download_dir])
      | _ =>
          match for_each_step (classify (active_files lv))
                  (Scan [] 0%N (printed lv)) (walk_target download_dir tg) with
          | Next st =>
              Returns (Some (orphaned_files st, total_orphaned_size st), warned st)
          | Raised st => Returns (None, warned st ++ [ErrScan])
          end
      end
  end.

End Stdout.

(** ** [main] after the scan *)

(** [orphaned_files.sort(key=lambda x: x[1], reverse=True)]: Python's sort
    is stable, also with [reverse=True]; among the stable sorts the result
    is unique, here it is computed by insertion from the right, an entry
    going before the entries that are not larger. *)
Fixpoint insert_desc (x : string * N) (l : list (string * N)) : list (string * N) :=
  match l with
  | [] => [x]
  | y :: l' => if (snd y <=? snd x)%N then x :: l else y :: insert_desc x l'
  end.

Definition sort_desc (l : list (string * N)) : list (string * N) :=
  foldr insert_desc [] l.

(** [s.startswith(old)] *)
Fixpoint starts_with (old s : string) : bool :=
  match old, s with
  | EmptyString, _ => true
  | String a old', String b s' => bool_decide (a = b) && starts_with old' s'
  | String _ _, EmptyString => false
  end.

(** [s.replace(old, '')] for a non-empty [old]: the occurrences of [old]
    are found from the left and do not overlap; [skip] counts the
    characters of the occurrence being dropped that are still ahead. *)
Fixpoint remove_from (skip : nat) (old s : string) : string :=
  match s with
  | EmptyString => EmptyString
  | String c r =>
      match skip with
      | S k => remove_from k old r
      | 0 =>
          if starts_with old s then remove_from (String.length old - 1) old r
          else String c (remove_from 0 old r)
      end
  end.

(** [file_path.replace(download_dir, '')]; replacing the empty string by
    the empty string changes nothing. *)
Definition display_path (download_dir file_path : string) : string :=
  match download_dir with
  | EmptyString => file_path
  | _ => remove_from 0 download_dir file_path
  end.

Fixpoint spaces (n : nat) : string :=
  match n with
  | 0 => EmptyString
  | S k => String " "%char (spaces k)
  end.

(** [f"{s:>10}"] *)
Definition rjust10 (s : string) : string :=
  spaces (10 - String.length s) +:+ s.

(** ["="*60] *)
Definition rule60 : string :=
  Eval cbv in
    (fix eqs (n : nat) : string :=
       match n with 0 => EmptyString | S k => String "="%char (eqs k) end) 60.

(** What happened to [~/qbittorrent_orphaned_files.txt]. *)
Inductive report :=
| Untouched                       (* never opened *)
| Written (lines : list string)   (* opened with mode ['w'], these lines written *)
| WriteFailed.                    (* [open] or a [write] raised *)

(** [deleted_count], [deleted_size], [failed_count] *)
Record deletion := Deletion {
  deleted_count : N;
  deleted_size : N;
  failed_count : N
}.

(** The end of a run of [main]. *)
Record outcome (World : Type) := Outcome {
  exit_status : N;                (* 1 after [sys.exit(1)], 0 after ["Done!"] *)
  result : list (string * N);     (* [orphaned_files] after the sort *)
  total : N;                      (* [total_orphaned_size] *)
  report_file : report;
  deleted : option deletion;      (* the counters of the deletion loop, [None] when it did not run *)
  output : list diag;
  world : World
}.
Arguments Outcome {World}.
Arguments exit_status {World}.
Arguments result {World}.
Arguments total {World}.
Arguments report_file {World}.
Arguments deleted {World}.
Arguments output {World}.
Arguments world {World}.

(** The last step of [get_connection_info]:
    [if not download_dir.endswith('/'): download_dir += '/']. *)
Definition trailing_slash (download_dir : string) : string :=
  if Path.ends_with_sep download_dir then download_dir
  else download_dir +:+ "/".

Section Main.

(** [format_bytes] goes through floating-point division and the [.2f]
    format; the report is studied for any such rendering of a size. *)
Variable format_bytes : N -> string.

(** Whether [print] can write a string to the terminal, as for
    [scan_torrents]. *)
Variable stdout_encodes : string -> bool.

(** The file system as the deletion loop sees it: [os.remove(path)] either
    removes the file ([true]) or raises ([false]), and leaves a new state. *)
Variable World : Type.
Variable os_remove : string -> World -> bool * World.

Definition report_header (download_dir : string) (orphans : list (string * N))
    (total_size : N) : list string :=
  [ "Orphaned Files Report";
    "Generated by: qBittorrent Orphaned Files Cleaner";
    "Download Directory: " +:+ download_dir;
    "Total files: " +:+ pretty (length orphans);
    "Total size: " +:+ format_bytes total_size;
    rule60;
    "" ].

(** [f"{format_bytes(size):>10} - {display_path}"] *)
Definition report_line (download_dir : string) (e : string * N) : string :=
  rjust10 (format_bytes (snd e)) +:+ " - " +:+ display_path download_dir (fst e).

Definition report_lines (download_dir : string) (orphans : list (string * N))
    (total_size : N) : list string :=
  report_header download_dir orphans total_size
  ++ map (report_line download_dir) orphans.

(** The state of the deletion loop. *)
Record deleting := Deleting {
  counts : deletion;
  errors : list diag;
  fs : World
}.

(** The body of [for file_path, size in orphaned_files].  In the [except]
    branch the failure is counted, then the error line is printed; when
    this [print] raises, the exception leaves the loop. *)
Definition delete_one (st : deleting) (e : string * N) : step deleting :=
  let '(file_path, size) := e in
  let '(removed, w) := os_remove file_path (fs st) in
  if removed then
    Next (Deleting (Deletion (deleted_count (counts st) + 1)
                             (deleted_size (counts st) + size)
                             (failed_count (counts st)))
                   (errors st) w)
  else
    let counted := Deletion (deleted_count (counts st))
                            (deleted_size (counts st))
                            (failed_count (counts st) + 1) in
    if stdout_encodes file_path
    then Next (Deleting counted (errors st ++ [ErrDelete file_path]) w)
    else Raised (Deleting counted (errors st) w).

Definition delete_all (orphans : list (string * N)) (w : World) : step deleting :=
  for_each_step delete_one (Deleting (Deletion 0 0 0) [] w) orphans.

(** The lines of the listing on the terminal, [orphaned_files[:20]], can
    all be printed. *)
Definition listing_prints (download_dir : string) (orphans : list (string * N)) : bool :=
  forallb (fun e => stdout_encodes (display_path download_dir (fst e)))
          (take 20 orphans).

(** [main] from the call of [scan_torrents] on.  [client] is the answer of
    [test_connection] ([None]: no client) with, inside, the answer of
    [torrents_info()]; [download_dir] is the directory as
    [get_connection_info] returns it; [can_write] tells whether the report
    file can be opened and written; [response] is the first answer after
    [.lower().strip()], [confirm] the second as typed, each [None] when
    [input] finds the end of the input and raises [EOFError].  An exception
    that leaves [main] reaches the handler at the end of the script, which
    prints its error and exits with status 1; an interrupt from the
    keyboard, which the handler turns into status 0, is not part of the
    model. *)
Definition main (client : option (option (list torrent))) (download_dir : string)
    (tg : target) (can_write : bool) (response confirm : option string) (w : World)
    : run (outcome World) :=
  match client with
  | None => Returns (Outcome 1 [] 0 Untouched None [] w)
  | Some info =>
      scanned ← scan_torrents stdout_encodes info download_dir tg;
      match scanned with
      | (None, out) => Returns (Outcome 1 [] 0 Untouched None out w)
      | (Some (found, total_size), out) =>
          let orphans := sort_desc found in
          match orphans with
          | [] => Returns (Outcome 0 orphans total_size Untouched None out w)
          | _ :: _ =>
              if negb (listing_prints download_dir orphans)
              then Returns (Outcome 1 orphans total_size Untouched None
                              (out ++ [ErrUnexpected]) w)
              else
                let '(rep, out1) :=
                  if can_write
                  then (Written (report_lines download_dir orphans total_size), out)
                  else (WriteFailed, out ++ [WarnReport]) in
                match response with
                | None =>
                    Returns (Outcome 1 orphans total_size rep None
                               (out1 ++ [ErrUnexpected]) w)
                | Some answer =>
                    if bool_decide (answer = "yes") then
                      match confirm with
                      | None =>
                          Returns (Outcome 1 orphans total_size rep None
                                     (out1 ++ [ErrUnexpected]) w)
                      | Some typed =>
                          if bool_decide (typed = "DELETE") then
                            match delete_all orphans w with
                            | Next d =>
                                Returns (Outcome 0 orphans total_size rep
                                           (Some (counts d))
                                           (out1 ++ errors d) (fs d))
                            | Raised d =>
                                Returns (Outcome 1 orphans total_size rep
                                           (Some (counts d))
                                           (out1 ++ errors d ++ [ErrUnexpected])
                                           (fs d))
                            end
                          else
                            Returns (Outcome 0 orphans total_size rep None out1 w)
                      end
                    else Returns (Outcome 0 orphans total_size rep None out1 w)
                end
          end
      end
  end.

End Main.

Arguments counts {World}.
Arguments errors {World}.
Arguments fs {World}.
Arguments Deleting {World}.
Arguments delete_one stdout_encodes {World} os_remove st e.
Arguments delete_all stdout_encodes {World} os_remove orphans w.
Arguments main format_bytes stdout_encodes {World} os_remove client download_dir tg
  can_write response confirm w.

(** ** Notions the properties are stated with *)

(** The paths one torrent contributes: [os.path.join(save_path, file.name)]
    for each of its files, nothing when its file list cannot be fetched. *)
Definition torrent_paths (t : torrent) : gset string :=
  match files t with
  | Some torrent_files => list_to_set (map (Path.join (save_path t)) torrent_files)
  | None => ∅
  end.

Definition live_paths (torrents : list torrent) : gset string :=
  ⋃ (map torrent_paths torrents).

(** The names of the torrents whose file list could not be fetched. *)
Definition failed_torrents (torrents : list torrent) : list string :=
  map name (filter (fun t => files t = None) torrents).

(** The [while] loop on the parents of [file_name] is left, and then within
    as many passes as the first parent has characters. *)
Definition file_halts (save_path file_name : string) : bool :=
  let parent := Path.dirname (Path.join save_path file_name) in
  bool_decide (is_Some (parents_within (String.length parent) save_path (parent, ∅))).

Definition torrent_halts (t : torrent) : bool :=
  match files t with
  | Some torrent_files => forallb (file_halts (save_path t)) torrent_files
  | None => true
  end.

Definition torrents_halt (torrents : list torrent) : bool :=
  forallb torrent_halts torrents.

(** A path component: not empty, no separator in it. *)
Fixpoint sep_free (s : string) : bool :=
  match s with
  | EmptyString => true
  | String c r => negb (Path.is_sep c) && sep_free r
  end.

Definition component (s : string) : bool :=
  negb (bool_decide (s = "")) && sep_free s.

(** [c1/c2/.../cn] *)
Fixpoint slashed (components : list string) : string :=
  match components with
  | [] => ""
  | [c] => c
  | c :: cs => c +:+ String Path.sep (slashed cs)
  end.

(** A save path the parents of its files climb back to: it does not end
    with a separator, unless it is made of separators only. *)
Definition climbable (save_path : string) : bool :=
  negb (Path.ends_with_sep save_path) || Path.all_sep save_path.

(** The names in a listed directory are path components. *)
Fixpoint names_ok (t : tree) : bool :=
  match t with
  | Unlistable => true
  | Dir entries subdirs =>
      forallb (fun e => component (fst e)) entries
      && forallb (fun d => component (fst d) && names_ok (snd d)) subdirs
  end.

Definition target_ok (tg : target) : bool :=
  match tg with
  | Directory t => names_ok t
  | _ => true
  end.

(** The entries the second loop records for the walked files [l]. *)
Definition orphans_of (active : gset string) (l : list (string * option N))
  : list (string * N) :=
  map (fun f => (fst f, default 0%N (snd f)))
      (filter (fun f => fst f ∉ active) l).

Definition warnings_of (active : gset string) (l : list (string * option N))
  : list diag :=
  map (fun f => WarnAccess (fst f))
      (filter (fun f => (fst f ∉ active) ∧ (snd f = None)) l).

(** Every warning the second loop has to print for the walked files [l]
    can be printed: a file that is not active and whose size cannot be read
    has a path the terminal can encode. *)
Definition warnings_print (stdout_encodes : string → bool) (active : gset string)
    (l : list (string * option N)) : bool :=
  forallb (fun f => match snd f with
                    | Some _ => true
                    | None => bool_decide (fst f ∈ active) || stdout_encodes (fst f)
                    end) l.

Definition sum_sizes (l : list (string * N)) : N :=
  foldr (fun e acc => (snd e + acc)%N) 0%N l.

(** Larger sizes first. *)
Definition by_size_desc (a b : string * N) : Prop := (snd b <= snd a)%N.

(** [old in s] *)
Fixpoint contains (old s : string) : bool :=
  starts_with old s ||
  (match s with
   | EmptyString => false
   | String _ r => contains old r
   end).

(** What [os.remove] answers when each entry is tried in turn, whatever
    the earlier answers were. *)
Fixpoint attempts {World : Type} (os_remove : string -> World -> bool * World)
    (orphans : list (string * N)) (w : World) : list bool :=
  match orphans with
  | [] => []
  | e :: rest =>
      let '(removed, w') := os_remove (fst e) w in
      removed :: attempts os_remove rest w'
  end.

(** The state [os.remove] leaves after each entry has been tried. *)
Fixpoint after_attempts {World : Type} (os_remove : string -> World -> bool * World)
    (orphans : list (string * N)) (w : World) : World :=
  match orphans with
  | [] => w
  | e :: rest => after_attempts os_remove rest (snd (os_remove (fst e) w))
  end.

(** Every error line the deletion loop has to print can be printed: an
    entry whose removal fails has a path the terminal can encode. *)
Definition errors_print {World : Type} (stdout_encodes : string → bool)
    (os_remove : string -> World -> bool * World)
    (orphans : list (string * N)) (w : World) : bool :=
  forallb (fun x => snd x || stdout_encodes (fst (fst x)))
          (zip orphans (attempts os_remove orphans w)).

(** The entries of [l] whose position, counted from [i], is not in [F]. *)
Fixpoint outside {A : Type} (F : gset nat) (i : nat) (l : list A) : list A :=
  match l with
  | [] => []
  | x :: l' =>
      if bool_decide (i ∈ F) then outside F (S i) l' else x :: outside F (S i) l'
  end.

(** *** Normalized paths ([posixpath.normpath], [posixpath.abspath]) *)

Module Norm.

(** [path.split('/')] *)
Fixpoint split (s : string) : list string :=
  match s with
  | EmptyString => [""]
  | String c r =>
      if Path.is_sep c then "" :: split r
      else match split r with
           | h :: t => String c h :: t
           | [] => [String c ""]
           end
  end.

(** [initial_slashes]: none, one, or two when the path starts with exactly
    two. *)
Definition initial_slashes (s : string) : nat :=
  match s with
  | String a (String b (String c _)) =>
      if Path.is_sep a then
        if Path.is_sep b && negb (Path.is_sep c) then 2 else 1
      else 0
  | String a (String b EmptyString) =>
      if Path.is_sep a then if Path.is_sep b then 2 else 1 else 0
  | String a EmptyString => if Path.is_sep a then 1 else 0
  | EmptyString => 0
  end.

(** The loop over [comps]; [new_comps] is kept with its last item first. *)
Fixpoint collapse (initial : nat) (comps new_comps : list string) : list string :=
  match comps with
  | [] => rev new_comps
  | comp :: rest =>
      if bool_decide (comp = "") || bool_decide (comp = ".")
      then collapse initial rest new_comps
      else if negb (bool_decide (comp = ".."))
              || (bool_decide (initial = 0) && bool_decide (new_comps = []))
              || match new_comps with
                 | last :: _ => bool_decide (last = "..")
                 | [] => false
                 end
      then collapse initial rest (comp :: new_comps)
      else collapse initial rest (tail new_comps)
  end.

Definition normpath (path : string) : string :=
  match path with
  | EmptyString => "."
  | _ =>
      let initial := initial_slashes path in
      let body := slashed (collapse initial (split path) []) in
      let out := (if bool_decide (initial = 2) then "//"
                  else if bool_decide (initial = 1) then "/" else "") +:+ body in
      match out with
      | EmptyString => "."
      | _ => out
      end
  end.

(** [os.path.abspath(path)] in the working directory [cwd]. *)
Definition abspath (cwd path : string) : string :=
  normpath (Path.join cwd path).

End Norm.


(** The last character of [s] is not a separator. *)
Definition ends_plain (s : string) : Prop :=
  ∃ s0 c, s = s0 +:+ String c "" ∧ Path.is_sep c = false.

(** [q/c1/.../cn] *)
Definition descend (q : string) (components : list string) : string :=
  foldl (fun acc c => acc +:+ String Path.sep c) q components.

(** The live paths in normal form, the working directory being [cwd]. *)
Definition normal_live (cwd : string) (torrents : list torrent) : gset string :=
  set_map (Norm.abspath cwd) (live_paths torrents).

(** ** Sample runs *)

Module Sample.

(** [/dl] holding [movie/a.mkv], [movie/b.nfo] and [other/c.txt]. *)
Definition disk : tree :=
  Dir [] [("movie", Dir [("a.mkv", Some 1000%N); ("b.nfo", Some 50%N)] []);
          ("other", Dir [("c.txt", Some 200%N)] [])].

(** The same with [other/dl/z], whose size cannot be read. *)
Definition nested : tree :=
  Dir [] [("movie", Dir [("a.mkv", Some 1000%N); ("b.nfo", Some 50%N)] []);
          ("other", Dir [("c.txt", Some 200%N)] [("dl", Dir [("z", None)] [])])].

Definition movie : torrent := Torrent "movie" "/dl/movie" (Some ["a.mkv"]).
Definition notes : torrent := Torrent "notes" "/dl/other" (Some ["c.txt"]).
Definition broken : torrent := Torrent "broken" "/dl/other" None.

(** The save path written with a redundant [./] segment. *)
Definition dotted : torrent := Torrent "movie" "/dl/./movie" (Some ["a.mkv"]).

(** The save path written with a trailing separator. *)
Definition trailing : torrent := Torrent "movie" "/dl/movie/" (Some ["a.mkv"]).

(** A byte no text holds in UTF-8, and a terminal that can encode the
    strings without it. *)
Definition stray : string := String (Ascii.ascii_of_nat 255) "".

Definition stdout (s : string) : bool := negb (contains stray s).

(** [/dl] holding [other/c.txt] and a dangling link [other/<stray>.lnk]:
    its size cannot be read, its name cannot be printed. *)
Definition tainted : tree :=
  Dir [] [("other", Dir [("c.txt", Some 200%N); (stray +:+ ".lnk", None)] [])].

(** The save path of [other/c.txt] written with a trailing separator. *)
Definition covering : torrent := Torrent "notes" "/dl/other/" (Some ["c.txt"]).

(** [/dl] holding twenty files of 119 down to 100 bytes, then a file
    whose name cannot be printed and a last file. *)
Definition crowded : tree :=
  Dir [("a01", Some 119%N); ("a02", Some 118%N); ("a03", Some 117%N);
       ("a04", Some 116%N); ("a05", Some 115%N); ("a06", Some 114%N);
       ("a07", Some 113%N); ("a08", Some 112%N); ("a09", Some 111%N);
       ("a10", Some 110%N); ("a11", Some 109%N); ("a12", Some 108%N);
       ("a13", Some 107%N); ("a14", Some 106%N); ("a15", Some 105%N);
       ("a16", Some 104%N); ("a17", Some 103%N); ("a18", Some 102%N);
       ("a19", Some 101%N); ("a20", Some 100%N);
       (stray +:+ ".bin", Some 50%N); ("last", Some 10%N)] [].

(** A file system where the paths in the state cannot be removed. *)
Definition remove (path : string) (locked : gset string) : bool * gset string :=
  (negb (bool_decide (path ∈ locked)), locked).

(** The same, keeping the paths [os.remove] was called on. *)
Definition remove_logged (path : string) (w : gset string * list string)
    : bool * (gset string * list string) :=
  (negb (bool_decide (path ∈ fst w)), (fst w, snd w ++ [path])).

Definition bytes (size : N) : string := pretty size +:+ " B".

(** The sorted orphans of [nested] when [movie] is the only torrent. *)
Definition leftovers : list (string * N) :=
  [("/dl/other/c.txt", 200%N); ("/dl/movie/b.nfo", 50%N); ("/dl/other/dl/z", 0%N)].

End Sample.

(** ** [format_bytes] *)

Module Human.

(** [float(n)] for an integer [n], as the integer it is equal to: [n]
    itself up to 53 bits, beyond that [n] rounded to 53 significant bits,
    halves going to the even neighbour. *)
Definition to_float (n : N) : N :=
  let bits := N.size n in
  if (bits <=? 53)%N then n
  else
    let drop := (bits - 53)%N in
    let kept := N.shiftr n drop in
    let rest := (n mod 2 ^ drop)%N in
    let half := (2 ^ (drop - 1))%N in
    let kept' :=
      if (half <? rest)%N || ((rest =? half)%N && N.odd kept)
      then (kept + 1)%N else kept in
    N.shiftl kept' drop.

(** The number of hundredths [f"{x:.2f}"] prints for [x = num/den]: the
    nearest one, a tie going to the even one. *)
Definition hundredths (num den : N) : N :=
  let q := (100 * num / den)%N in
  let r := ((100 * num) mod den)%N in
  if (den <? 2 * r)%N || ((2 * r =? den)%N && N.odd q) then (q + 1)%N else q.

(** [f"{x:.2f} {unit}"] for [x = num/den]. *)
Definition render (num den : N) (unit : string) : string :=
  let h := hundredths num den in
  pretty (h / 100)%N +:+ "." +:+ pretty (h mod 100 / 10)%N
  +:+ pretty (h mod 10)%N +:+ " " +:+ unit.

(** [format_bytes(size)] on an integer [size].  The first test and the
    first format are on the integer; [size /= 1024.0] turns it into a
    float, which raises [OverflowError] ([None]) from [2^1024] on; dividing
    a float of this size by 1024.0 is exact, so after [k] divisions [size]
    is [to_float n / 1024^k]. *)
Definition format_bytes (n : N) : option string :=
  if (n <? 1024)%N then Some (render n 1 "B")
  else
    let x := to_float n in
    if (2 ^ 1024 <=? x)%N then None
    else if (x <? 1024 ^ 2)%N then Some (render x 1024 "KB")
    else if (x <? 1024 ^ 3)%N then Some (render x (1024 ^ 2) "MB")
    else if (x <? 1024 ^ 4)%N then Some (render x (1024 ^ 3) "GB")
    else if (x <? 1024 ^ 5)%N then Some (render x (1024 ^ 4) "TB")
    else Some (render x (1024 ^ 5) "PB").

(** The unit of the [k]-th pass of the loop. *)
Definition unit_of (k : nat) : string :=
  match k with
  | 0 => "B" | 1 => "KB" | 2 => "MB" | 3 => "GB" | 4 => "TB" | _ => "PB"
  end.

End Human.

(** ** [get_connection_info] *)

Module Setup.

Record connection := Connection {
  host : string;
  port : Z;
  username : string;
  password : string;
  download_dir : string
}.

Section Prompts.

(** [int(port_str)], [None] when it raises [ValueError]. *)
Variable int_of : string → option Z.

(** [os.path.expanduser], [os.path.exists] and [os.path.isdir]. *)
Variable expanduser : string → string.
Variable exists_ : string → bool.
Variable isdir : string → bool.

(** The answers still to come; each is the value the script works with at
    its prompt: after [.strip()] for the host, the port, the user name and
    the directory, after [.lower()] for the question about a missing
    directory, as typed for the password.  A prompt with no answer left
    raises [EOFError] ([None]). *)

(** The [while True] loop on the port. *)
Fixpoint read_port (answers : list string) : option (Z * list string) :=
  match answers with
  | [] => None
  | port_str :: rest =>
      if bool_decide (port_str = "") then Some (8080%Z, rest)
      else match int_of port_str with
           | Some p =>
               if bool_decide (1 ≤ p ≤ 65535)%Z then Some (p, rest)
               else read_port rest
           | None => read_port rest
           end
  end.

(** The loops on the user name and on the password: the first answer that
    is not empty. *)
Fixpoint read_nonempty (answers : list string) : option (string * list string) :=
  match answers with
  | [] => None
  | a :: rest => if bool_decide (a = "") then read_nonempty rest else Some (a, rest)
  end.

(** The [while True] loop on the download directory. *)
Fixpoint read_dir (answers : list string) : option (string * list string) :=
  match answers with
  | [] => None
  | typed :: rest =>
      if bool_decide (typed = "") then read_dir rest
      else
        let dir := expanduser typed in
        if negb (exists_ dir) then
          match rest with
          | [] => None
          | create :: rest' =>
              if bool_decide (create = "yes") then Some (dir, rest')
              else read_dir rest'
          end
        else if negb (isdir dir) then read_dir rest
        else Some (dir, rest)
  end.

(** [get_connection_info()], with the answers it leaves unread. *)
Definition get_connection_info (answers : list string)
  : option (connection * list string) :=
  match answers with
  | [] => None
  | typed_host :: rest =>
      let host := if bool_decide (typed_host = "") then "localhost" else typed_host in
      '(port, rest) ← read_port rest;
      '(username, rest) ← read_nonempty rest;
      '(password, rest) ← read_nonempty rest;
      '(dir, rest) ← read_dir rest;
      Some (Connection host port username password (trailing_slash dir), rest)
  end.

(** The answers the port loop turns down. *)
Definition bad_port (port_str : string) : Prop :=
  port_str ≠ "" ∧
  match int_of port_str with
  | Some p => ¬ (1 ≤ p ≤ 65535)%Z
  | None => True
  end.

(** The answers the port loop takes, with the port they give. *)
Definition accepts_port (port_str : string) (p : Z) : Prop :=
  port_str = "" ∧ p = 8080%Z
  ∨ port_str ≠ "" ∧ int_of port_str = Some p ∧ (1 ≤ p ≤ 65535)%Z.

End Prompts.

End Setup.

(** ** Directories between a save path and a file *)

(** [q/c1], [q/c1/c2], ..., [q/c1/.../cn] *)
Fixpoint between (q : string) (components : list string) : list string :=
  match components with
  | [] => []
  | c :: cs => (q +:+ String Path.sep c) :: between (q +:+ String Path.sep c) cs
  end.

(** The paths of the entries whose removal failed, in the order of the
    list. *)
Fixpoint failed_paths (orphans : list (string * N)) (answers : list bool) : list string :=
  match orphans, answers with
  | e :: orphans', removed :: answers' =>
      if removed then failed_paths orphans' answers'
      else fst e :: failed_paths orphans' answers'
  | _, _ => []
  end.

(** ** The files of a tree, relative to its root *)




(** A sample for the prompts: only [/dl] exists, and it is a directory;
    [int] knows a few numerals. *)
Module SamplePrompts.

Definition int_of (s : string) : option Z :=
  if bool_decide (s = "8081") then Some 8081%Z
  else if bool_decide (s = "0") then Some 0%Z
  else if bool_decide (s = "70000") then Some 70000%Z
  else None.

Definition expanduser (s : string) : string := s.
Definition exists_ (s : string) : bool := bool_decide (s = "/dl").
Definition isdir (s : string) : bool := bool_decide (s = "/dl").

End SamplePrompts.

(** * Properties *)

(** ** Paths *)

Lemma rstrip_while_length f s :
  String.length (Path.rstrip_while f s) ≤ String.length s.
Proof.
  induction s as [|c r IH]; simpl; [done|].
  destruct (Path.rstrip_while f r) eqn:E.
  - destruct (f c); simpl; lia.
  - simpl in *. lia.
Qed.

Lemma rstrip_while_same f s :
  String.length (Path.rstrip_while f s) = String.length s →
  Path.rstrip_while f s = s.
Proof.
  induction s as [|c r IH]; simpl; [done|].
  destruct (Path.rstrip_while f r) eqn:E.
  - destruct (f c); simpl; [done|].
    destruct r; simpl; [done|intros ?; lia].
  - simpl. intros H. f_equal. apply IH. simpl in *. lia.
Qed.

Lemma dirname_length p : String.length (Path.dirname p) ≤ String.length p.
Proof.
  unfold Path.dirname.
  pose proof (rstrip_while_length (fun c => negb (Path.is_sep c)) p).
  destruct (_ && _); [|done].
  etrans; [apply rstrip_while_length|done].
Qed.

(** [os.path.dirname] gives its argument back or a shorter string. *)
Lemma dirname_shorter p :
  Path.dirname p ≠ p → String.length (Path.dirname p) < String.length p.
Proof.
  intros Hne.
  destruct (decide (String.length (Path.dirname p) = String.length p)) as [E|];
    [|pose proof (dirname_length p); lia].
  exfalso. apply Hne. revert E. unfold Path.dirname.
  pose proof (rstrip_while_length (fun c => negb (Path.is_sep c)) p) as H1.
  pose proof (rstrip_while_length Path.is_sep
                (Path.rstrip_while (fun c => negb (Path.is_sep c)) p)) as H2.
  destruct (_ && _); intros E.
  - assert (Path.rstrip_while (fun c => negb (Path.is_sep c)) p = p) as E1
      by (apply rstrip_while_same; lia).
    rewrite E1 in *. by apply rstrip_while_same.
  - by apply rstrip_while_same.
Qed.

(** ** The loop over the parents *)

Lemma parents_body_stuck sp p dirs :
  p ≠ "" → p ≠ sp → Path.dirname p = p →
  parents_body sp (p, dirs) = Some (p, {[p]} ∪ dirs).
Proof.
  intros H1 H2 H3. unfold parents_body.
  rewrite !bool_decide_eq_false_2 by done. simpl. by rewrite H3.
Qed.

(** Where [os.path.dirname] gives [parent] back, the loop is never left. *)
Lemma parents_within_stuck n sp p dirs :
  p ≠ "" → p ≠ sp → Path.dirname p = p →
  parents_within n sp (p, dirs) = None.
Proof.
  intros H1 H2 H3. revert dirs.
  induction n as [|n IH]; intros dirs; cbn [parents_within];
    rewrite parents_body_stuck by done; [done|apply IH].
Qed.

(** [track_parents] computes what the loop does: it returns what the loop
    leaves with and hangs where the loop is not left within the passes
    allowed, as soon as these are as many as [parent] has characters. *)
Lemma track_parents_within fuel sp p dirs :
  String.length p ≤ fuel →
  track_parents fuel sp p dirs =
    match parents_within fuel sp (p, dirs) with
    | Some dirs' => Returns dirs'
    | None => Hangs
    end.
Proof.
  revert p dirs. induction fuel as [|k IH]; intros p dirs Hlen.
  - destruct p; [|simpl in Hlen; lia]. done.
  - cbn [track_parents parents_within parents_body].
    destruct (bool_decide (p = "") || bool_decide (p = sp)) eqn:Hc; [done|].
    apply orb_false_iff in Hc as [Hp Hs].
    apply bool_decide_eq_false in Hp, Hs.
    case_bool_decide as Hup.
    + by rewrite Hup, parents_within_stuck.
    + apply IH. apply dirname_shorter in Hup. lia.
Qed.

(** Passes beyond the length of [parent] do not help: a loop not left by
    then is never left. *)
Lemma parents_within_never fuel sp p dirs :
  String.length p ≤ fuel →
  parents_within fuel sp (p, dirs) = None →
  ∀ n, parents_within n sp (p, dirs) = None.
Proof.
  revert p dirs. induction fuel as [|k IH]; intros p dirs Hlen Hnone n.
  - destruct p; [|simpl in Hlen; lia]. done.
  - revert Hnone. destruct n as [|n];
      cbn [parents_within parents_body];
      destruct (bool_decide (p = "") || bool_decide (p = sp)) eqn:Hc;
      try done.
    apply orb_false_iff in Hc as [Hp Hs].
    apply bool_decide_eq_false in Hp, Hs.
    destruct (decide (Path.dirname p = p)) as [Hup|Hup].
    + intros _. rewrite Hup. by apply parents_within_stuck.
    + intros Hnone. apply IH; [|done]. apply dirname_shorter in Hup. lia.
Qed.

Lemma parents_within_dirs n sp p d1 d2 :
  is_Some (parents_within n sp (p, d1)) → is_Some (parents_within n sp (p, d2)).
Proof.
  revert p d1 d2. induction n as [|n IH]; intros p d1 d2;
    cbn [parents_within parents_body];
    destruct (bool_decide (p = "") || bool_decide (p = sp)); simpl; eauto.
Qed.

(** ** The active files *)


Lemma track_file_halts sp st f :
  file_halts sp f = true →
  ∃ dirs, track_file sp st f = Returns ({[Path.join sp f]} ∪ fst st, dirs).
Proof.
  unfold file_halts, track_file. intros H.
  apply bool_decide_eq_true in H.
  apply (parents_within_dirs _ _ _ _ (snd st)) in H as [dirs H].
  rewrite track_parents_within, H by done. by exists dirs.
Qed.

Lemma track_file_hangs sp st f :
  file_halts sp f = false → track_file sp st f = Hangs.
Proof.
  unfold file_halts, track_file. intros H.
  apply bool_decide_eq_false in H.
  rewrite track_parents_within by done.
  destruct (parents_within _ _ (_, snd st)) eqn:E; [|done].
  exfalso. apply H. eapply parents_within_dirs. by rewrite E.
Qed.

Lemma track_files_halt sp st fs :
  forallb (file_halts sp) fs = true →
  ∃ dirs, for_each (track_file sp) st fs
          = Returns (list_to_set (map (Path.join sp) fs) ∪ fst st, dirs).
Proof.
  revert st. induction fs as [|f fs IH]; intros st H; simpl in *.
  - exists (snd st). destruct st. f_equal. simpl. f_equal. set_solver.
  - apply andb_true_iff in H as [H1 H2].
    destruct (track_file_halts sp st f H1) as [d1 ->]. simpl.
    destruct (IH ({[Path.join sp f]} ∪ st.1, d1) H2) as [d2 ->].
    exists d2. do 2 f_equal. simpl. set_solver.
Qed.

Lemma track_files_hang sp st fs :
  forallb (file_halts sp) fs = false → for_each (track_file sp) st fs = Hangs.
Proof.
  revert st. induction fs as [|f fs IH]; intros st H; simpl in *; [done|].
  destruct (file_halts sp f) eqn:Hf.
  - destruct (track_file_halts sp st f Hf) as [d1 ->]. simpl. by apply IH.
  - by rewrite track_file_hangs.
Qed.

Lemma track_torrent_halts st t :
  torrent_halts t = true →
  ∃ dirs, track_torrent st t =
    Returns (Live (torrent_paths t ∪ active_files st) dirs
               (printed st ++ map WarnTorrentFiles (failed_torrents [t]))).
Proof.
  unfold torrent_halts, track_torrent, torrent_paths, failed_torrents.
  intros H. destruct (files t) as [fs|] eqn:E.
  - destruct (track_files_halt (save_path t) (active_files st, active_dirs st) fs H)
      as [dirs ->].
    exists dirs. simpl. rewrite filter_cons_False, filter_nil by (rewrite E; done).
    simpl. by rewrite app_nil_r.
  - exists (active_dirs st). simpl. rewrite filter_cons_True by done.
    do 2 f_equal. set_solver.
Qed.

Lemma track_torrent_hangs st t :
  torrent_halts t = false → track_torrent st t = Hangs.
Proof.
  unfold torrent_halts, track_torrent. intros H.
  destruct (files t) as [fs|]; [|done].
  by rewrite track_files_hang.
Qed.

Lemma failed_torrents_cons t ts :
  failed_torrents (t :: ts) = failed_torrents [t] ++ failed_torrents ts.
Proof.
  unfold failed_torrents. rewrite <- map_app. f_equal.
  by rewrite <- filter_app.
Qed.

Lemma track_torrents_halt st ts :
  torrents_halt ts = true →
  ∃ dirs, for_each track_torrent st ts =
    Returns (Live (live_paths ts ∪ active_files st) dirs
               (printed st ++ map WarnTorrentFiles (failed_torrents ts))).
Proof.
  revert st. induction ts as [|t ts IH]; intros st H; simpl in *.
  - exists (active_dirs st). destruct st. simpl. f_equal.
    rewrite app_nil_r. f_equal. unfold live_paths. set_solver.
  - apply andb_true_iff in H as [H1 H2].
    destruct (track_torrent_halts st t H1) as [d1 ->]. simpl.
    destruct (IH (Live (torrent_paths t ∪ active_files st) d1
                    (printed st ++ map WarnTorrentFiles (failed_torrents [t]))) H2)
      as [d2 ->].
    exists d2. simpl. f_equal.
    rewrite (failed_torrents_cons t ts), map_app, app_assoc. f_equal.
    unfold live_paths. simpl. set_solver.
Qed.

Lemma track_torrents_hang st ts :
  torrents_halt ts = false → for_each track_torrent st ts = Hangs.
Proof.
  revert st. induction ts as [|t ts IH]; intros st H; simpl in *; [done|].
  destruct (torrent_halts t) eqn:Ht.
  - destruct (track_torrent_halts st t Ht) as [d1 ->]. simpl. by apply IH.
  - by rewrite track_torrent_hangs.
Qed.

(** The first loop returns exactly when every parent loop is left; it then
    holds the joined paths of the torrents whose files were fetched and has
    printed one warning for each of the others. *)
Lemma build_live_halts ts :
  torrents_halt ts = true →
  ∃ dirs, build_live ts =
    Returns (Live (live_paths ts) dirs (map WarnTorrentFiles (failed_torrents ts))).
Proof.
  intros H. destruct (track_torrents_halt (Live ∅ ∅ []) ts H) as [dirs E].
  exists dirs. unfold build_live. rewrite E. simpl. do 2 f_equal. set_solver.
Qed.

Lemma build_live_hangs ts : torrents_halt ts = false → build_live ts = Hangs.
Proof. apply track_torrents_hang. Qed.



(** ** The walk *)

Lemma orphans_of_cons active f l :
  orphans_of active (f :: l) =
    (if bool_decide (fst f ∈ active) then [] else [(fst f, default 0%N (snd f))])
    ++ orphans_of active l.
Proof.
  unfold orphans_of. case_bool_decide.
  - by rewrite filter_cons_False by (by intros ?).
  - by rewrite filter_cons_True by done.
Qed.

Lemma warnings_of_cons active f l :
  warnings_of active (f :: l) =
    (if bool_decide (fst f ∈ active) then []
     else match snd f with Some _ => [] | None => [WarnAccess (fst f)] end)
    ++ warnings_of active l.
Proof.
  unfold warnings_of. case_bool_decide.
  - by rewrite filter_cons_False by (by intros [? ?]).
  - destruct (snd f) eqn:E.
    + by rewrite filter_cons_False by (intros [? ?]; congruence).
    + by rewrite filter_cons_True by done.
Qed.

Lemma sum_sizes_app l1 l2 : sum_sizes (l1 ++ l2) = (sum_sizes l1 + sum_sizes l2)%N.
Proof.
  induction l1 as [|e l1 IH]; simpl; [done|].
  unfold sum_sizes in *. simpl. rewrite IH. lia.
Qed.

Lemma warnings_print_cons encodes active f l :
  warnings_print encodes active (f :: l) =
    match snd f with
    | Some _ => true
    | None => bool_decide (fst f ∈ active) || encodes (fst f)
    end && warnings_print encodes active l.
Proof. done. Qed.

Lemma classify_live encodes active st p sz :
  p ∈ active → classify encodes active st (p, sz) = Next st.
Proof. intros H. unfold classify. by rewrite bool_decide_eq_true_2. Qed.

Lemma classify_sized encodes active st p n :
  p ∉ active →
  classify encodes active st (p, Some n) =
    Next (Scan (orphaned_files st ++ [(p, n)]) (total_orphaned_size st + n)
               (warned st)).
Proof. intros H. unfold classify. by rewrite bool_decide_eq_false_2. Qed.

Lemma classify_unread encodes active st p :
  p ∉ active → encodes p = true →
  classify encodes active st (p, None) =
    Next (Scan (orphaned_files st ++ [(p, 0%N)]) (total_orphaned_size st)
               (warned st ++ [WarnAccess p])).
Proof.
  intros H He. unfold classify. by rewrite bool_decide_eq_false_2, He.
Qed.

Lemma classify_unprintable encodes active st p :
  p ∉ active → encodes p = false →
  classify encodes active st (p, None) = Raised st.
Proof.
  intros H He. unfold classify. by rewrite bool_decide_eq_false_2, He.
Qed.

(** The second loop appends to what it started with: the walked files that
    are not active, in the order of the walk, with size 0 and a warning
    where the size cannot be read, as long as the warnings can be
    printed. *)
Lemma classify_all encodes active st l :
  warnings_print encodes active l = true →
  for_each_step (classify encodes active) st l =
    Next (Scan (orphaned_files st ++ orphans_of active l)
               (total_orphaned_size st + sum_sizes (orphans_of active l))
               (warned st ++ warnings_of active l)).
Proof.
  revert st. induction l as [|[p sz] l IH]; intros st Hpr.
  - destruct st. simpl. unfold orphans_of, warnings_of.
    rewrite !filter_nil. simpl. rewrite !app_nil_r. do 2 f_equal.
    unfold sum_sizes. simpl. lia.
  - rewrite warnings_print_cons in Hpr. apply andb_true_iff in Hpr as [Hp Hl].
    cbn [for_each_step]. rewrite orphans_of_cons, warnings_of_cons.
    simpl in Hp. cbn [fst snd].
    destruct (decide (p ∈ active)) as [Hin|Hin].
    + rewrite (classify_live encodes active st p sz Hin).
      rewrite bool_decide_eq_true_2 by done. by rewrite IH.
    + rewrite bool_decide_eq_false_2 in * by done.
      destruct sz as [n|].
      * rewrite (classify_sized encodes active st p n Hin).
        rewrite IH by done. simpl. rewrite <- !app_assoc. simpl. do 2 f_equal.
        unfold sum_sizes. simpl. lia.
      * simpl in Hp.
        rewrite (classify_unread encodes active st p Hin Hp).
        rewrite IH by done. simpl. rewrite <- !app_assoc. simpl. done.
Qed.

(** A warning that cannot be printed ends the second loop. *)
Lemma classify_raises encodes active st l :
  warnings_print encodes active l = false →
  ∃ st' more, for_each_step (classify encodes active) st l = Raised st' ∧
              warned st' = warned st ++ more.
Proof.
  revert st. induction l as [|[p sz] l IH]; intros st Hpr; [done|].
  rewrite warnings_print_cons in Hpr. cbn [for_each_step]. simpl in Hpr.
  destruct (decide (p ∈ active)) as [Hin|Hin].
  - rewrite (classify_live encodes active st p sz Hin).
    rewrite bool_decide_eq_true_2 in Hpr by done.
    destruct sz; simpl in Hpr; by apply IH.
  - rewrite bool_decide_eq_false_2 in Hpr by done.
    destruct sz as [n|]; simpl in Hpr.
    + rewrite (classify_sized encodes active st p n Hin).
      destruct (IH (Scan (orphaned_files st ++ [(p, n)])
                      (total_orphaned_size st + n)
                      (warned st)) Hpr)
        as (st' & more & -> & E).
      by exists st', more.
    + destruct (encodes p) eqn:He; simpl in Hpr.
      * rewrite (classify_unread encodes active st p Hin He).
        destruct (IH (Scan (orphaned_files st ++ [(p, 0%N)])
                        (total_orphaned_size st)
                        (warned st ++ [WarnAccess p])) Hpr)
          as (st' & more & -> & E).
        exists st', (WarnAccess p :: more). split; [done|].
        rewrite E. simpl. by rewrite <- app_assoc.
      * rewrite (classify_unprintable encodes active st p Hin He).
        exists st, []. by rewrite app_nil_r.
Qed.

(** What [scan_torrents] returns and prints when the first loop returns and
    the warnings of the second can be printed. *)
Lemma scan_torrents_halts encodes ts d tg :
  torrents_halt ts = true →
  warnings_print encodes (live_paths ts) (walk_target d tg) = true →
  scan_torrents encodes (Some ts) d tg =
    Returns
      (Some (orphans_of (live_paths ts) (walk_target d tg),
             sum_sizes (orphans_of (live_paths ts) (walk_target d tg))),
       map WarnTorrentFiles (failed_torrents ts)
       ++ match tg with
          | Missing => [ErrNoDirectory d]
          | _ => warnings_of (live_paths ts) (walk_target d tg)
          end).
Proof.
  intros H Hpr. unfold scan_torrents.
  destruct (build_live_halts ts H) as [dirs ->]. simpl.
  destruct tg; [done| |]; by rewrite classify_all.
Qed.

(** With a warning that cannot be printed, [scan_torrents] gives up. *)
Lemma scan_torrents_aborts encodes ts d tg :
  torrents_halt ts = true →
  warnings_print encodes (live_paths ts) (walk_target d tg) = false →
  ∃ more, scan_torrents encodes (Some ts) d tg
          = Returns (None, map WarnTorrentFiles (failed_torrents ts)
                           ++ more ++ [ErrScan]).
Proof.
  intros H Hpr. unfold scan_torrents.
  destruct (build_live_halts ts H) as [dirs ->]. simpl.
  destruct tg; [done|done|].
  destruct (classify_raises encodes (live_paths ts)
              (Scan [] 0 (map WarnTorrentFiles (failed_torrents ts)))
              _ Hpr) as (st' & more & -> & E).
  exists more. simpl in E. by rewrite E, <- app_assoc.
Qed.

Lemma scan_torrents_hangs encodes ts d tg :
  torrents_halt ts = false → scan_torrents encodes (Some ts) d tg = Hangs.
Proof. intros H. unfold scan_torrents. by rewrite build_live_hangs. Qed.

Lemma elem_of_orphans_of active l p :
  p ∈ (orphans_of active l).*1 ↔ p ∈ l.*1 ∧ p ∉ active.
Proof.
  unfold orphans_of. rewrite <- list_fmap_compose.
  rewrite !list_elem_of_fmap. split.
  - intros [f [-> Hf]]. apply list_elem_of_filter in Hf as [Hf1 Hf2].
    split; [|done]. by exists f.
  - intros [[f [-> Hf]] Hp]. exists f. split; [done|].
    by apply list_elem_of_filter.
Qed.

(** ** The sort *)

Lemma insert_desc_perm x l : insert_desc x l ≡ₚ x :: l.
Proof.
  induction l as [|y l IH]; simpl; [done|].
  destruct (snd y <=? snd x)%N; [done|].
  rewrite IH. apply Permutation_swap.
Qed.

Lemma sort_desc_perm l : sort_desc l ≡ₚ l.
Proof.
  induction l as [|x l IH]; simpl; [done|].
  by rewrite insert_desc_perm, IH.
Qed.

Lemma insert_desc_sorted x l :
  StronglySorted by_size_desc l → StronglySorted by_size_desc (insert_desc x l).
Proof.
  induction 1 as [|y l Hs IH Hall]; simpl.
  - repeat constructor.
  - destruct (snd y <=? snd x)%N eqn:E.
    + apply N.leb_le in E. constructor; [by constructor|].
      constructor; [done|].
      eapply Forall_impl; [exact Hall|]. unfold by_size_desc. intros; lia.
    + apply N.leb_gt in E. constructor; [done|].
      rewrite insert_desc_perm. constructor; [|done].
      unfold by_size_desc. lia.
Qed.

Lemma sort_desc_sorted l : StronglySorted by_size_desc (sort_desc l).
Proof.
  induction l as [|x l IH]; simpl; [constructor|by apply insert_desc_sorted].
Qed.

Lemma sum_sizes_perm l1 l2 : l1 ≡ₚ l2 → sum_sizes l1 = sum_sizes l2.
Proof.
  unfold sum_sizes. induction 1; simpl; lia.
Qed.

Lemma filter_insert_desc (P : string * N → Prop) `{!∀ e, Decision (P e)} x l :
  StronglySorted by_size_desc l →
  filter P (insert_desc x l) =
    if decide (P x) then insert_desc x (filter P l) else filter P l.
Proof.
  induction 1 as [|y l Hs IH Hall]; simpl.
  - rewrite filter_cons, filter_nil. by destruct (decide (P x)).
  - destruct (snd y <=? snd x)%N eqn:E.
    + rewrite (filter_cons _ x). destruct (decide (P x)) as [Hx|Hx]; [|done].
      rewrite (filter_cons _ y). destruct (decide (P y)) as [Hy|Hy].
      * simpl. by rewrite E.
      * apply N.leb_le in E.
        assert (Forall (fun z => (snd z <= snd x)%N) (filter P l)) as Hle.
        { apply Forall_forall. intros z Hz.
          apply list_elem_of_filter in Hz as [_ Hz].
          rewrite Forall_forall in Hall. specialize (Hall z Hz).
          unfold by_size_desc in Hall. lia. }
        destruct Hle as [|z l' Hz _]; simpl; [done|].
        apply N.leb_le in Hz. by rewrite Hz.
    + rewrite !(filter_cons _ y), IH.
      destruct (decide (P y)), (decide (P x)); simpl; try done. by rewrite E.
Qed.

(** Sorting and dropping entries can be done in either order: the sort
    keeps the entries it leaves side by side in the order they had. *)
Lemma filter_sort_desc (P : string * N → Prop) `{!∀ e, Decision (P e)} l :
  filter P (sort_desc l) = sort_desc (filter P l).
Proof.
  induction l as [|x l IH]; simpl; [done|].
  rewrite filter_insert_desc by apply sort_desc_sorted.
  rewrite filter_cons. destruct (decide (P x)); simpl; by rewrite IH.
Qed.

(** Entries of one size keep their order. *)
Lemma sort_desc_stable n l :
  filter (fun e => snd e = n) (sort_desc l) = filter (fun e => snd e = n) l.
Proof.
  rewrite filter_sort_desc.
  assert (Forall (fun e => snd e = n) (filter (fun e => snd e = n) l)) as H.
  { apply Forall_forall. intros e He. by apply list_elem_of_filter in He as [? _]. }
  induction H as [|x l' Hx Hl IH]; simpl; [done|].
  rewrite IH. destruct Hl as [|y l'' Hy _]; simpl; [done|].
  rewrite Hx, Hy, N.leb_refl. done.
Qed.

(** ** Classification *)

(** C1, as the code has it: when the first loop returns the scan returns,
    and a path is in the list it returns exactly when the walk yields it
    and it is not, character for character, one of the paths joined from
    the save path and a file name of a torrent whose files could be
    fetched.  No list is returned only when a warning of the walk cannot
    be printed. *)
Theorem scan_classifies_by_string encodes ts d tg :
  torrents_halt ts = true →
  ∃ res out,
    scan_torrents encodes (Some ts) d tg = Returns (res, out) ∧
    match res with
    | Some (found, _) =>
        ∀ p, p ∈ found.*1 ↔ p ∈ (walk_target d tg).*1 ∧ p ∉ live_paths ts
    | None =>
        warnings_print encodes (live_paths ts) (walk_target d tg) = false
    end.
Proof.
  intros H.
  destruct (warnings_print encodes (live_paths ts) (walk_target d tg)) eqn:Hpr.
  - eexists _, _. split; [by apply scan_torrents_halts|].
    intros p. apply elem_of_orphans_of.
  - destruct (scan_torrents_aborts encodes ts d tg H Hpr) as [more ->].
    by eexists _, _.
Qed.

Lemma scan_classifies_by_string_witness :
  ∃ res out,
    scan_torrents Sample.stdout (Some [Sample.movie]) "/dl/" (Directory Sample.disk)
      = Returns (res, out) ∧
    match res with
    | Some (found, _) =>
        ∀ p, p ∈ found.*1 ↔
             p ∈ (walk_target "/dl/" (Directory Sample.disk)).*1 ∧
             p ∉ live_paths [Sample.movie]
    | None =>
        warnings_print Sample.stdout (live_paths [Sample.movie])
          (walk_target "/dl/" (Directory Sample.disk)) = false
    end.
Proof.
  apply (scan_classifies_by_string Sample.stdout [Sample.movie]).
  vm_compute. reflexivity.
Defined.

(** C1 as stated fails: [/dl/movie/a.mkv] is walked and listed as an
    orphan although the torrent's path [/dl/./movie/a.mkv] has the same
    normal form. *)
Lemma scan_compares_unnormalized :
  scan_torrents Sample.stdout (Some [Sample.dotted]) "/dl/" (Directory Sample.disk)
    = Returns (Some ([("/dl/movie/a.mkv", 1000%N); ("/dl/movie/b.nfo", 50%N);
                      ("/dl/other/c.txt", 200%N)], 1250%N), []) ∧
  "/dl/movie/a.mkv" ∈ (walk_target "/dl/" (Directory Sample.disk)).*1 ∧
  ¬ (("/dl/movie/a.mkv" : string)
       ∈ [("/dl/movie/a.mkv", 1000%N); ("/dl/movie/b.nfo", 50%N);
          ("/dl/other/c.txt", 200%N)].*1
     ↔ Norm.abspath "/" "/dl/movie/a.mkv" ∉ normal_live "/" [Sample.dotted]).
Proof.
  split; [vm_compute; reflexivity|].
  split; [apply (bool_decide_unpack _); vm_compute; exact I|].
  intros [Hin _]. apply Hin.
  - apply (bool_decide_unpack _). vm_compute. exact I.
  - apply (bool_decide_unpack _). vm_compute. exact I.
Qed.

(** ** [main] when the first loop returns *)

(** When a warning of the walk cannot be printed, [main] ends with status
    1 and has done nothing. *)
Lemma main_aborted fb encodes {World} (rm : string → World → bool * World)
    ts d tg cw r c w :
  torrents_halt ts = true →
  warnings_print encodes (live_paths ts) (walk_target d tg) = false →
  ∃ out, main fb encodes rm (Some (Some ts)) d tg cw r c w
         = Returns (Outcome 1 [] 0 Untouched None out w).
Proof.
  intros H Hpr. unfold main.
  destruct (scan_torrents_aborts encodes ts d tg H Hpr) as [more ->].
  by eexists.
Qed.

(** When the scan gives a list, [main] sorts it; an empty list ends the
    run, otherwise the report is written once the listing has been
    printed. *)
Lemma main_scanned fb encodes {World} (rm : string → World → bool * World)
    ts d tg cw r c w :
  torrents_halt ts = true →
  warnings_print encodes (live_paths ts) (walk_target d tg) = true →
  ∃ o, main fb encodes rm (Some (Some ts)) d tg cw r c w = Returns o ∧
       result o = sort_desc (orphans_of (live_paths ts) (walk_target d tg)) ∧
       total o = sum_sizes (orphans_of (live_paths ts) (walk_target d tg)) ∧
       report_file o =
         match result o with
         | [] => Untouched
         | _ :: _ =>
             if listing_prints encodes d (result o) then
               if cw then Written (report_lines fb d (result o) (total o))
               else WriteFailed
             else Untouched
         end.
Proof.
  intros H Hpr. unfold main. rewrite scan_torrents_halts by done. simpl.
  destruct (sort_desc _) as [|e l] eqn:E.
  - eexists. split; [done|]. by simpl.
  - destruct (listing_prints encodes d (e :: l)) eqn:Hl; simpl.
    + destruct cw, r as [r|]; try (eexists; split; [done|]; simpl; by rewrite ?Hl);
        (destruct (bool_decide (r = "yes"));
         [destruct c as [c|];
          [destruct (bool_decide (c = "DELETE"));
           [destruct (delete_all encodes rm (e :: l) w)|]|]|];
         eexists; (split; [done|]); simpl; by rewrite ?Hl).
    + eexists. split; [done|]. simpl. by rewrite Hl.
Qed.

(** ** No torrents *)



(** ** Sizes that cannot be read *)

Lemma elem_of_orphans_of_unread active l p :
  (p, None) ∈ l → p ∉ active → (p, 0%N) ∈ orphans_of active l.
Proof.
  intros Hin Hp. unfold orphans_of. apply list_elem_of_fmap.
  exists (p, None). split; [done|]. by apply list_elem_of_filter.
Qed.

Lemma elem_of_warnings_of active l p :
  (p, None) ∈ l → p ∉ active → WarnAccess p ∈ warnings_of active l.
Proof.
  intros Hin Hp. unfold warnings_of. apply list_elem_of_fmap.
  exists (p, None). split; [done|]. by apply list_elem_of_filter.
Qed.

Lemma walk_target_missing d : walk_target d Missing = [].
Proof. done. Qed.

(** C4 fails on the code where the warning cannot be printed: the dangling
    link [/dl/other/<stray>.lnk] is walked, is no active file and has no
    readable size; the [print] of its warning raises, the scan returns
    [(None, None)] with no entry and no warning for it, and [main] ends
    with status 1. *)
Theorem unprintable_warning_aborts_scan fb {World}
    (rm : string → World → bool * World) cw r c w :
  ("/dl/other/" +:+ Sample.stray +:+ ".lnk", None)
    ∈ walk_target "/dl/" (Directory Sample.tainted) ∧
  "/dl/other/" +:+ Sample.stray +:+ ".lnk" ∉ live_paths [Sample.movie] ∧
  scan_torrents Sample.stdout (Some [Sample.movie]) "/dl/" (Directory Sample.tainted)
    = Returns (None, [ErrScan]) ∧
  main fb Sample.stdout rm (Some (Some [Sample.movie])) "/dl/"
    (Directory Sample.tainted) cw r c w
    = Returns (Outcome 1 [] 0 Untouched None [ErrScan] w).
Proof.
  split; [apply list_elem_of_In; vm_compute; tauto|].
  split; [apply (bool_decide_unpack _); vm_compute; exact I|].
  split; vm_compute; reflexivity.
Qed.

(** X20: a walked file that is not active and whose size cannot be read is
    recorded with size 0, stays in the sorted list, and a warning naming it
    is printed, when the warnings of the walk can be printed. *)
Theorem unreadable_size_recorded encodes ts d tg p :
  torrents_halt ts = true →
  warnings_print encodes (live_paths ts) (walk_target d tg) = true →
  (p, None) ∈ walk_target d tg →
  p ∉ live_paths ts →
  ∃ found size out,
    scan_torrents encodes (Some ts) d tg = Returns (Some (found, size), out) ∧
    (p, 0%N) ∈ found ∧ (p, 0%N) ∈ sort_desc found ∧ WarnAccess p ∈ out.
Proof.
  intros H Hpr Hin Hp. eexists _, _, _.
  split; [by apply scan_torrents_halts|].
  pose proof (elem_of_orphans_of_unread _ _ _ Hin Hp) as Hfound.
  split; [done|]. split; [by rewrite sort_desc_perm|].
  apply elem_of_app. right.
  destruct tg; [by apply elem_of_nil in Hin| |];
    by apply elem_of_warnings_of.
Qed.

Lemma unreadable_size_recorded_witness :
  ∃ found size out,
    scan_torrents Sample.stdout (Some [Sample.movie]) "/dl/" (Directory Sample.nested)
      = Returns (Some (found, size), out) ∧
    ("/dl/other/dl/z", 0%N) ∈ found ∧
    ("/dl/other/dl/z", 0%N) ∈ sort_desc found ∧
    WarnAccess "/dl/other/dl/z" ∈ out.
Proof.
  apply (unreadable_size_recorded Sample.stdout [Sample.movie]).
  - vm_compute. reflexivity.
  - vm_compute. reflexivity.
  - apply (bool_decide_unpack _). vm_compute. exact I.
  - apply (bool_decide_unpack _). vm_compute. exact I.
Defined.

(** ** The sorted result and its total *)

(** C5: the list [main] works with is sorted by size, larger first, and the
    total is the sum of the sizes recorded in it, zeros included. *)
Theorem result_sorted_and_summed fb encodes {World}
    (rm : string → World → bool * World) ts d tg cw r c w :
  torrents_halt ts = true →
  ∃ o, main fb encodes rm (Some (Some ts)) d tg cw r c w = Returns o ∧
       StronglySorted by_size_desc (result o) ∧
       total o = sum_sizes (result o).
Proof.
  intros H.
  destruct (warnings_print encodes (live_paths ts) (walk_target d tg)) eqn:Hpr.
  - destruct (main_scanned fb encodes rm ts d tg cw r c w H Hpr)
      as (o & Ho & Hr & Ht & _).
    exists o. split; [done|]. rewrite Hr, Ht.
    split; [apply sort_desc_sorted|].
    symmetry. apply sum_sizes_perm, sort_desc_perm.
  - destruct (main_aborted fb encodes rm ts d tg cw r c w H Hpr) as [out Ho].
    eexists. split; [exact Ho|]. simpl. split; [constructor|done].
Qed.

Lemma result_sorted_and_summed_witness :
  ∃ o, main Sample.bytes Sample.stdout Sample.remove (Some (Some [Sample.movie]))
         "/dl/" (Directory Sample.nested) true (Some "no") (Some "") ∅ = Returns o ∧
       StronglySorted by_size_desc (result o) ∧
       total o = sum_sizes (result o).
Proof.
  apply (result_sorted_and_summed Sample.bytes Sample.stdout Sample.remove
           [Sample.movie]).
  vm_compute. reflexivity.
Defined.

(** ** A torrent whose files cannot be fetched *)

Lemma torrents_halt_app ts1 ts2 :
  torrents_halt (ts1 ++ ts2) = torrents_halt ts1 && torrents_halt ts2.
Proof. apply forallb_app. Qed.

Lemma live_paths_app ts1 ts2 :
  live_paths (ts1 ++ ts2) = live_paths ts1 ∪ live_paths ts2.
Proof.
  unfold live_paths. rewrite map_app. apply leibniz_equiv, union_list_app.
Qed.

Lemma live_paths_cons t ts : live_paths (t :: ts) = torrent_paths t ∪ live_paths ts.
Proof. done. Qed.





(** ** One more torrent *)

Lemma orphans_of_union A B l :
  orphans_of (A ∪ B) l = filter (fun e => fst e ∉ A) (orphans_of B l).
Proof.
  induction l as [|f l IH]; [done|].
  rewrite !orphans_of_cons, filter_app, IH. f_equal.
  destruct (decide (fst f ∈ B)) as [HB|HB].
  - rewrite !bool_decide_eq_true_2 by set_solver. done.
  - rewrite (bool_decide_eq_false_2 (fst f ∈ B)) by done.
    destruct (decide (fst f ∈ A)) as [HA|HA].
    + rewrite bool_decide_eq_true_2 by set_solver.
      by rewrite filter_cons_False by (simpl; by intros ?).
    + rewrite bool_decide_eq_false_2 by set_solver.
      by rewrite filter_cons_True by done.
Qed.

Lemma warnings_print_mono encodes (A B : gset string) l :
  A ⊆ B → warnings_print encodes A l = true → warnings_print encodes B l = true.
Proof.
  intros HAB. unfold warnings_print. rewrite !forallb_forall.
  intros H f Hf. specialize (H f Hf). destruct (snd f); [done|].
  apply orb_true_iff in H as [H|H]; [|by rewrite H, orb_true_r].
  apply bool_decide_eq_true in H.
  rewrite bool_decide_eq_true_2 by set_solver. done.
Qed.

(** A scan that returns a list has left its first loop and printed the
    warnings of its walk. *)
Lemma scan_torrents_list encodes ts d tg found size out :
  scan_torrents encodes (Some ts) d tg = Returns (Some (found, size), out) →
  torrents_halt ts = true ∧
  warnings_print encodes (live_paths ts) (walk_target d tg) = true ∧
  found = orphans_of (live_paths ts) (walk_target d tg) ∧
  size = sum_sizes found.
Proof.
  intros E.
  destruct (torrents_halt ts) eqn:H;
    [|by rewrite scan_torrents_hangs in E].
  destruct (warnings_print encodes (live_paths ts) (walk_target d tg)) eqn:Hpr.
  - rewrite scan_torrents_halts in E by done. by injection E as <- <- _.
  - by destruct (scan_torrents_aborts encodes ts d tg H Hpr) as [more E'];
      rewrite E' in E.
Qed.

(** C8 fails on the code where the added torrent's save path ends with a
    separator: with [movie] alone the scan of the sample disk lists
    [/dl/other/c.txt]; the torrent [covering] has that very path among its
    joined paths; with it added, the disk unchanged, the scan never
    returns, so there is no next list. *)
Theorem covering_torrent_hangs_scan :
  scan_torrents Sample.stdout (Some [Sample.movie]) "/dl/" (Directory Sample.disk)
    = Returns (Some ([("/dl/movie/b.nfo", 50%N); ("/dl/other/c.txt", 200%N)],
                     250%N), []) ∧
  "/dl/other/c.txt" ∈ torrent_paths Sample.covering ∧
  scan_torrents Sample.stdout (Some [Sample.movie; Sample.covering]) "/dl/"
    (Directory Sample.disk) = Hangs.
Proof.
  split; [vm_compute; reflexivity|].
  split; [apply (bool_decide_unpack _); vm_compute; exact I|].
  vm_compute. reflexivity.
Qed.

(** X22: when a scan has returned a list and a torrent on which the loop
    over the parents returns is added, the files on disk being the same,
    the scan returns the former list less the entries whose path is one of
    the new torrent's joined paths; the same holds of the sorted lists. *)
Theorem added_torrent_removes_covered encodes ts1 t ts2 d tg found size out :
  torrent_halts t = true →
  scan_torrents encodes (Some (ts1 ++ ts2)) d tg
    = Returns (Some (found, size), out) →
  ∃ found' size' out',
    scan_torrents encodes (Some (ts1 ++ t :: ts2)) d tg
      = Returns (Some (found', size'), out') ∧
    found' = filter (fun e => fst e ∉ torrent_paths t) found ∧
    sort_desc found' = filter (fun e => fst e ∉ torrent_paths t) (sort_desc found) ∧
    size' = sum_sizes found'.
Proof.
  intros Ht E.
  apply scan_torrents_list in E as (H & Hpr & -> & _).
  assert (torrents_halt (ts1 ++ t :: ts2) = true) as H'.
  { rewrite torrents_halt_app in *. simpl. by rewrite Ht. }
  assert (live_paths (ts1 ++ t :: ts2) = torrent_paths t ∪ live_paths (ts1 ++ ts2))
    as Hlive.
  { rewrite !live_paths_app, live_paths_cons. set_solver. }
  eexists _, _, _.
  split.
  { apply scan_torrents_halts; [done|].
    apply (warnings_print_mono encodes (live_paths (ts1 ++ ts2))); [|done].
    rewrite Hlive. set_solver. }
  rewrite Hlive, orphans_of_union. split; [done|]. split; [|done].
  by rewrite filter_sort_desc.
Qed.

Lemma added_torrent_removes_covered_witness :
  ∃ found' size' out',
    scan_torrents Sample.stdout (Some ([Sample.movie] ++ Sample.notes :: []))
      "/dl/" (Directory Sample.nested) = Returns (Some (found', size'), out') ∧
    found' = filter (fun e => fst e ∉ torrent_paths Sample.notes)
               [("/dl/movie/b.nfo", 50%N); ("/dl/other/c.txt", 200%N);
                ("/dl/other/dl/z", 0%N)] ∧
    sort_desc found'
      = filter (fun e => fst e ∉ torrent_paths Sample.notes)
          (sort_desc [("/dl/movie/b.nfo", 50%N); ("/dl/other/c.txt", 200%N);
                      ("/dl/other/dl/z", 0%N)]) ∧
    size' = sum_sizes found'.
Proof.
  apply (added_torrent_removes_covered Sample.stdout [Sample.movie] Sample.notes []
           "/dl/" (Directory Sample.nested) _ 250%N
           [WarnAccess "/dl/other/dl/z"]).
  - vm_compute. reflexivity.
  - vm_compute. reflexivity.
Defined.

(** ** Deletion *)

Section Deletion.

Context {World : Type} (rm : string → World → bool * World).

Lemma attempts_length orphans w : length (attempts rm orphans w) = length orphans.
Proof.
  revert w. induction orphans as [|e l IH]; intros w; simpl; [done|].
  destruct (rm (fst e) w). simpl. by rewrite IH.
Qed.

Lemma errors_print_cons (encodes : string → bool) p n l w :
  errors_print encodes rm ((p, n) :: l) w
  = (fst (rm p w) || encodes p) && errors_print encodes rm l (snd (rm p w)).
Proof. unfold errors_print. simpl. by destruct (rm p w). Qed.

Lemma delete_one_removed (encodes : string → bool) st p n w' :
  rm p (fs st) = (true, w') →
  delete_one encodes rm st (p, n)
  = Next (Deleting (Deletion (deleted_count (counts st) + 1)
                             (deleted_size (counts st) + n)
                             (failed_count (counts st)))
                   (errors st) w').
Proof. intros E. unfold delete_one. by rewrite E. Qed.

Lemma delete_one_failed (encodes : string → bool) st p n w' :
  rm p (fs st) = (false, w') → encodes p = true →
  delete_one encodes rm st (p, n)
  = Next (Deleting (Deletion (deleted_count (counts st))
                             (deleted_size (counts st))
                             (failed_count (counts st) + 1))
                   (errors st ++ [ErrDelete p]) w').
Proof. intros E He. unfold delete_one. by rewrite E, He. Qed.


(** When the error lines can be printed the loop tries every entry: it
    ends in the state reached by trying them all, with the successes,
    their sizes and the failures counted. *)
Lemma delete_loop (encodes : string → bool) st orphans :
  errors_print encodes rm orphans (fs st) = true →
  let att := attempts rm orphans (fs st) in
  for_each_step (delete_one encodes rm) st orphans =
    Next
      (Deleting
         (Deletion
            (deleted_count (counts st)
             + N.of_nat (length (filter (fun b => b = true) att)))
            (deleted_size (counts st)
             + sum_sizes (filter (fun x => snd x = true) (zip orphans att)).*1)
            (failed_count (counts st)
             + N.of_nat (length (filter (fun b => b = false) att))))
         (errors st
          ++ map (fun x => ErrDelete (fst (fst x)))
               (filter (fun x => snd x = false) (zip orphans att)))
         (after_attempts rm orphans (fs st))).
Proof.
  revert st. induction orphans as [|[p n] l IH]; intros st Hpr.
  - destruct st as [[dc ds fc] er w]. simpl. rewrite app_nil_r.
    do 3 f_equal; lia.
  - rewrite errors_print_cons in Hpr.
    apply andb_true_iff in Hpr as [Hp Hpr].
    cbn [for_each_step]. destruct (rm p (fs st)) as [[|] w'] eqn:E.
    + rewrite (delete_one_removed encodes st p n w' E).
      rewrite IH by done. clear IH. simpl. rewrite E. simpl.
      rewrite ?filter_cons. simpl. do 2 f_equal. unfold sum_sizes. simpl.
      f_equal; [lia|symmetry; apply N.add_assoc].
    + simpl in Hp. rewrite (delete_one_failed encodes st p n w' E Hp).
      rewrite IH by done. clear IH. simpl. rewrite E. simpl.
      rewrite ?filter_cons. simpl.
      rewrite <- app_assoc. do 2 f_equal. f_equal; lia.
Qed.


End Deletion.

Lemma failures_counted (att : list bool) (i : nat) (F : gset nat) :
  (∀ k, k ∈ F ↔ ∃ j, k = i + j ∧ att !! j = Some false) →
  length (filter (fun b => b = false) att) = size F.
Proof.
  revert i F. induction att as [|b att IH]; intros i F HF.
  - assert (F = ∅) as ->; [|done].
    apply leibniz_equiv. intros k. rewrite HF. split; [|set_solver].
    intros (j & _ & Hj). by rewrite lookup_nil in Hj.
  - assert (∀ k, k ∈ F ∖ {[i]} ↔ ∃ j, k = S i + j ∧ att !! j = Some false) as HF'.
    { intros k. rewrite elem_of_difference, HF, not_elem_of_singleton. split.
      - intros [(j & -> & Hj) Hne]. destruct j as [|j]; [lia|].
        exists j. split; [lia|done].
      - intros (j & -> & Hj). split; [|lia]. exists (S j). split; [lia|done]. }
    specialize (IH (S i) _ HF').
    destruct b.
    + rewrite filter_cons_False by done. rewrite IH. f_equal.
      apply leibniz_equiv. apply difference_disjoint. apply disjoint_singleton_r.
      rewrite HF. intros (j & Hj & Hb). destruct j as [|j]; [done|lia].
    + rewrite filter_cons_True by done. simpl. rewrite IH.
      assert (i ∈ F) as Hi.
      { apply HF. exists 0. split; [lia|done]. }
      assert (size F = size ({[i]} ∪ F ∖ {[i]})) as ->.
      { f_equal. apply union_difference_L. set_solver. }
      rewrite (size_union (C:=gset nat) {[i]} (F ∖ {[i]})) by set_solver.
      by rewrite (size_singleton (C:=gset nat) i).
Qed.

Lemma filter_bool_split (att : list bool) :
  length (filter (fun b => b = true) att)
  = length att - length (filter (fun b => b = false) att).
Proof.
  induction att as [|[|] att IH]; [done| |].
  - rewrite filter_cons_True, filter_cons_False by done. simpl.
    pose proof (length_filter (fun b => b = false) att). lia.
  - rewrite filter_cons_False, filter_cons_True by done. simpl. done.
Qed.

Lemma removed_are_outside {A} (l : list A) (att : list bool) (i : nat) (F : gset nat) :
  length att = length l →
  (∀ j, j < length att → i + j ∈ F ↔ att !! j = Some false) →
  (filter (fun x => snd x = true) (zip l att)).*1 = outside F i l.
Proof.
  revert att i. induction l as [|x l IH]; intros [|b att] i Hlen HF;
    simpl in *; try done.
  assert ((filter (fun x => snd x = true) (zip l att)).*1 = outside F (S i) l) as E.
  { apply IH; [lia|]. intros j Hj.
    replace (S i + j) with (i + S j) by lia. apply (HF (S j)). lia. }
  pose proof (HF 0 ltac:(lia)) as H0. rewrite Nat.add_0_r in H0. simpl in H0.
  destruct b.
  - rewrite filter_cons_True by done. rewrite fmap_cons, E. simpl.
    rewrite bool_decide_eq_false_2; [done|].
    rewrite H0. done.
  - rewrite filter_cons_False by done.
    rewrite bool_decide_eq_true_2; [done|]. by apply H0.
Qed.

(** C7 fails on the code where the error line of a failed removal cannot
    be printed: of the 22 orphans of the sample directory, sorted, only
    the removal of the 21st fails; the [print] in the handler raises, the
    loop is left with 20 deleted and 1 failed, [os.remove] is never called
    on the last entry, and [main] ends with status 1 where N - |F| = 21
    deletions were to be reported; the report file, written or not, has no
    part in it. *)
Theorem unprintable_error_stops_deletion :
  let orphans :=
    sort_desc (orphans_of ∅ (walk_target "/dl/" (Directory Sample.crowded))) in
  let locked : gset string := {["/dl/" +:+ Sample.stray +:+ ".bin"]} in
  length orphans = 22 ∧
  orphans !! 21 = Some ("/dl/last", 10%N) ∧
  (∀ k, attempts Sample.remove_logged orphans (locked, []) !! k = Some false
        ↔ k = 20) ∧
  ∀ can_write,
    ∃ o, main Sample.bytes Sample.stdout Sample.remove_logged (Some (Some []))
           "/dl/" (Directory Sample.crowded) can_write (Some "yes") (Some "DELETE")
           (locked, []) = Returns o ∧
         exit_status o = 1%N ∧
         deleted o = Some (Deletion 20 2190 1) ∧
         length (snd (world o)) = 21 ∧
         "/dl/last" ∉ snd (world o).
Proof.
  intros orphans locked.
  split; [vm_compute; reflexivity|].
  split; [vm_compute; reflexivity|].
  split.
  { intros k.
    assert (attempts Sample.remove_logged orphans (locked, [])
            = replicate 20 true ++ [false; true]) as ->
      by (vm_compute; reflexivity).
    do 22 (destruct k as [|k]; [simpl; split; intros; (done || lia)|]).
    simpl. split; intros; (done || lia). }
  intros [|]; (eexists; split; [vm_compute; reflexivity|]);
    (split; [done|]); (split; [done|]); (split; [done|]);
    apply (bool_decide_unpack _); vm_compute; exact I.
Qed.

(** X21: when the removals that fail are those of the entries at the
    positions in [F], and the error line of each can be printed, the loop
    has tried each of the N entries in turn, whatever the earlier answers,
    and ends with N - |F| deleted, |F| failed, and the sizes of the entries
    outside [F] added up. *)
Theorem deletion_tolerates_failures encodes {World}
    (rm : string → World → bool * World)
    (orphans : list (string * N)) (w : World) (F : gset nat) :
  (∀ k, k ∈ F ↔ attempts rm orphans w !! k = Some false) →
  errors_print encodes rm orphans w = true →
  ∃ d, delete_all encodes rm orphans w = Next d ∧
       length (attempts rm orphans w) = length orphans ∧
       fs d = after_attempts rm orphans w ∧
       deleted_count (counts d) = N.of_nat (length orphans - size F) ∧
       failed_count (counts d) = N.of_nat (size F) ∧
       deleted_size (counts d) = sum_sizes (outside F 0 orphans).
Proof.
  intros HF Hpr. unfold delete_all. rewrite delete_loop by done.
  eexists. split; [done|]. simpl.
  pose proof (attempts_length rm orphans w) as Hlen.
  assert (length (filter (fun b => b = false) (attempts rm orphans w)) = size F)
    as Hfail.
  { apply (failures_counted _ 0). intros k. rewrite HF. split.
    - intros Hk. by exists k.
    - by intros (j & -> & Hj). }
  split; [done|]. split; [done|].
  rewrite filter_bool_split, Hfail, Hlen.
  split; [done|]. split; [done|].
  rewrite N.add_0_l. f_equal. apply removed_are_outside; [done|].
  intros j _. simpl. apply HF.
Qed.

Lemma deletion_tolerates_failures_witness :
  ∃ d, delete_all Sample.stdout Sample.remove Sample.leftovers {["/dl/movie/b.nfo"]}
       = Next d ∧
       length (attempts Sample.remove Sample.leftovers {["/dl/movie/b.nfo"]})
         = length Sample.leftovers ∧
       fs d = after_attempts Sample.remove Sample.leftovers {["/dl/movie/b.nfo"]} ∧
       deleted_count (counts d)
         = N.of_nat (length Sample.leftovers - size ({[1]} : gset nat)) ∧
       failed_count (counts d) = N.of_nat (size ({[1]} : gset nat)) ∧
       deleted_size (counts d) = sum_sizes (outside {[1]} 0 Sample.leftovers).
Proof.
  apply (deletion_tolerates_failures Sample.stdout Sample.remove Sample.leftovers
           {["/dl/movie/b.nfo"]} {[1]}).
  - intros k. rewrite elem_of_singleton.
    assert (attempts Sample.remove Sample.leftovers {["/dl/movie/b.nfo"]}
            = [true; false; true]) as -> by (vm_compute; reflexivity).
    destruct k as [|[|[|k]]]; simpl; split; intros H; try done; lia.
  - vm_compute. reflexivity.
Defined.

(** ** Paths of the walk *)

Lemma tree_ind (P : tree → Prop) :
  P Unlistable →
  (∀ entries subdirs, Forall (fun d => P (snd d)) subdirs → P (Dir entries subdirs)) →
  ∀ t, P t.
Proof.
  intros Hu Hd. fix IH 1. intros [entries subdirs|]; [|exact Hu].
  apply Hd. induction subdirs as [|[n t] subdirs IHs]; constructor.
  - apply IH.
  - exact IHs.
Qed.

Lemma append_cons c (a b : string) : String c a +:+ b = String c (a +:+ b).
Proof. reflexivity. Qed.

Lemma append_empty (b : string) : "" +:+ b = b.
Proof. reflexivity. Qed.

Lemma starts_with_app a b : starts_with a (a +:+ b) = true.
Proof.
  induction a as [|c a IH]; [done|].
  rewrite append_cons. simpl. by rewrite bool_decide_eq_true_2, IH.
Qed.

Lemma starts_with_split a p : starts_with a p = true → ∃ rel, p = a +:+ rel.
Proof.
  revert p. induction a as [|c a IH]; intros p H; simpl in *.
  - by exists p.
  - destruct p as [|c' p]; [done|].
    apply andb_true_iff in H as [Hc Hp]. apply bool_decide_eq_true in Hc as ->.
    destruct (IH p Hp) as [rel ->]. exists rel. by rewrite append_cons.
Qed.

Lemma string_app_assoc (a b c : string) : (a +:+ b) +:+ c = a +:+ (b +:+ c).
Proof.
  induction a as [|x a IH]; [done|]. rewrite !append_cons. by f_equal.
Qed.

Lemma starts_with_trans a b c :
  starts_with a b = true → starts_with b c = true → starts_with a c = true.
Proof.
  intros [r1 ->]%starts_with_split [r2 ->]%starts_with_split.
  rewrite string_app_assoc. apply starts_with_app.
Qed.

Lemma component_not_absolute n : component n = true → Path.starts_with_sep n = false.
Proof.
  unfold component. intros [_ H]%andb_true_iff.
  destruct n as [|c n]; [done|]. simpl in *.
  apply andb_true_iff in H as [H _]. by apply negb_true_iff in H.
Qed.

(** [os.path.join(root, name)] begins with [root] when [name] is the name
    of a directory entry. *)
Lemma join_starts_with root n :
  component n = true → starts_with root (Path.join root n) = true.
Proof.
  intros H. unfold Path.join. rewrite component_not_absolute by done.
  destruct (_ || _); apply starts_with_app.
Qed.

Lemma walk_starts_with t :
  ∀ root, names_ok t = true →
          Forall (fun f => starts_with root (fst f) = true) (walk root t).
Proof.
  induction t as [|entries subdirs IH] using tree_ind; intros root Hok;
    [constructor|].
  simpl in *. apply andb_true_iff in Hok as [He Hs].
  apply Forall_app. split.
  - apply Forall_fmap, Forall_forall. intros e Hin. simpl.
    apply join_starts_with.
    rewrite forallb_forall in He. apply He. by apply list_elem_of_In.
  - apply Forall_forall. intros f Hf.
    apply list_elem_of_In, in_flat_map in Hf as ([n t] & Hd & Hf).
    rewrite Forall_forall in IH.
    rewrite forallb_forall in Hs.
    pose proof (Hs _ Hd) as Hnt. simpl in Hnt.
    apply andb_true_iff in Hnt as [Hn Ht].
    apply list_elem_of_In in Hd, Hf.
    pose proof (IH _ Hd (Path.join root n) Ht) as Hall. simpl in Hall.
    rewrite Forall_forall in Hall.
    eapply starts_with_trans; [by apply join_starts_with|by apply Hall].
Qed.

Lemma orphans_start_with active root l :
  Forall (fun f => starts_with root (fst f) = true) l →
  Forall (fun e => starts_with root (fst e) = true) (orphans_of active l).
Proof.
  intros H. unfold orphans_of. apply Forall_fmap.
  apply Forall_forall. intros f Hf. apply list_elem_of_filter in Hf as [_ Hf].
  rewrite Forall_forall in H. by apply H.
Qed.

Lemma walk_target_starts_with d tg :
  target_ok tg = true →
  Forall (fun f => starts_with d (fst f) = true) (walk_target d tg).
Proof.
  destruct tg; simpl; try constructor. apply walk_starts_with.
Qed.

Lemma ends_with_sep_app s : Path.ends_with_sep (s +:+ "/") = true.
Proof.
  induction s as [|c s IH]; [done|].
  rewrite append_cons. simpl. destruct (s +:+ "/") eqn:E; [by destruct s|done].
Qed.

Lemma trailing_slash_ends dir : Path.ends_with_sep (trailing_slash dir) = true.
Proof.
  unfold trailing_slash. destruct (Path.ends_with_sep dir) eqn:E; [done|].
  apply ends_with_sep_app.
Qed.

Lemma delete_all_ext encodes {World} (rm1 rm2 : string → World → bool * World)
    (P : string → Prop) orphans w :
  (∀ p w', P p → rm2 p w' = rm1 p w') →
  Forall (fun e => P (fst e)) orphans →
  delete_all encodes rm2 orphans w = delete_all encodes rm1 orphans w.
Proof.
  intros Hrm Hall. unfold delete_all.
  generalize (Deleting (Deletion 0 0 0) [] w).
  induction Hall as [|[p n] l Hp Hl IH]; intros st; [done|].
  cbn [for_each_step].
  assert (delete_one encodes rm2 st (p, n) = delete_one encodes rm1 st (p, n))
    as ->.
  { unfold delete_one. by rewrite Hrm. }
  destruct (delete_one encodes rm1 st (p, n)); [apply IH|done].
Qed.

(** [main] calls [os.remove] on the paths of the sorted list only. *)
Lemma main_ext fb encodes {World} (rm1 rm2 : string → World → bool * World)
    (P : string → Prop) ts d tg cw r c w :
  (∀ p w', P p → rm2 p w' = rm1 p w') →
  Forall (fun e => P (fst e))
    (sort_desc (orphans_of (live_paths ts) (walk_target d tg))) →
  main fb encodes rm2 (Some (Some ts)) d tg cw r c w
  = main fb encodes rm1 (Some (Some ts)) d tg cw r c w.
Proof.
  intros Hrm Hall. unfold main.
  destruct (scan_torrents encodes (Some ts) d tg) as [|[[[found size]|] out]] eqn:E;
    [done| |done].
  apply scan_torrents_list in E as (_ & _ & -> & _). simpl.
  destruct (sort_desc _) as [|e l]; [done|].
  by rewrite (delete_all_ext encodes rm1 rm2 _ _ _ Hrm Hall).
Qed.

(** C10: the target directory ends with a separator, every path of the
    orphan list begins with it, and [os.remove] is called on paths of that
    list only: what it would do on any other path has no bearing on the
    run. *)
Theorem orphans_inside_target fb encodes {World}
    (rm : string → World → bool * World) ts dir tg cw r c w :
  torrents_halt ts = true →
  target_ok tg = true →
  Path.ends_with_sep (trailing_slash dir) = true ∧
  ∃ o, main fb encodes rm (Some (Some ts)) (trailing_slash dir) tg cw r c w
       = Returns o ∧
       Forall (fun e => starts_with (trailing_slash dir) (fst e) = true) (result o) ∧
       ∀ rm' : string → World → bool * World,
         (∀ p w', starts_with (trailing_slash dir) p = true → rm' p w' = rm p w') →
         main fb encodes rm' (Some (Some ts)) (trailing_slash dir) tg cw r c w
         = Returns o.
Proof.
  intros H Hok. split; [apply trailing_slash_ends|].
  set (d := trailing_slash dir).
  assert (Forall (fun e => starts_with d (fst e) = true)
            (sort_desc (orphans_of (live_paths ts) (walk_target d tg)))) as Hall.
  { rewrite sort_desc_perm.
    by apply orphans_start_with, walk_target_starts_with. }
  assert (∃ o, main fb encodes rm (Some (Some ts)) d tg cw r c w = Returns o ∧
               Forall (fun e => starts_with d (fst e) = true) (result o))
    as (o & Ho & Hres).
  { destruct (warnings_print encodes (live_paths ts) (walk_target d tg)) eqn:Hpr.
    - destruct (main_scanned fb encodes rm ts d tg cw r c w H Hpr)
        as (o & Ho & Hr & _).
      exists o. split; [done|]. by rewrite Hr.
    - destruct (main_aborted fb encodes rm ts d tg cw r c w H Hpr) as [out Ho].
      eexists. split; [exact Ho|]. simpl. constructor. }
  exists o. split; [done|]. split; [done|].
  intros rm' Hrm. rewrite <- Ho.
  by apply (main_ext fb encodes rm rm' (fun p => starts_with d p = true)).
Qed.

Lemma orphans_inside_target_witness :
  Path.ends_with_sep (trailing_slash "/dl") = true ∧
  ∃ o, main Sample.bytes Sample.stdout Sample.remove (Some (Some [Sample.movie]))
         (trailing_slash "/dl") (Directory Sample.nested) true
         (Some "yes") (Some "DELETE") {["/dl/movie/b.nfo"]} = Returns o ∧
       Forall (fun e => starts_with (trailing_slash "/dl") (fst e) = true) (result o) ∧
       ∀ rm' : string → gset string → bool * gset string,
         (∀ p w', starts_with (trailing_slash "/dl") p = true →
                  rm' p w' = Sample.remove p w') →
         main Sample.bytes Sample.stdout rm' (Some (Some [Sample.movie]))
           (trailing_slash "/dl") (Directory Sample.nested) true
           (Some "yes") (Some "DELETE") {["/dl/movie/b.nfo"]} = Returns o.
Proof.
  apply (orphans_inside_target Sample.bytes Sample.stdout Sample.remove
           [Sample.movie]).
  - vm_compute. reflexivity.
  - vm_compute. reflexivity.
Defined.

(** ** The report file *)

Lemma remove_from_skip old s1 s2 :
  remove_from (String.length s1) old (s1 +:+ s2) = remove_from 0 old s2.
Proof.
  induction s1 as [|c s1 IH]; [done|]. rewrite append_cons. simpl. apply IH.
Qed.

Lemma remove_from_absent old s :
  contains old s = false → remove_from 0 old s = s.
Proof.
  induction s as [|c s IH]; [done|]. simpl.
  intros [H1 H2]%orb_false_iff. simpl in H1. rewrite H1. f_equal. by apply IH.
Qed.

(** Where the download directory occurs in a path at its start and nowhere
    after, the path shown in the report is the rest of the path. *)
Lemma display_path_relative d rel :
  d ≠ "" → contains d rel = false → display_path d (d +:+ rel) = rel.
Proof.
  intros Hd Hrel. destruct d as [|c d]; [done|].
  unfold display_path. rewrite append_cons.
  cbn [remove_from]. rewrite <- append_cons, starts_with_app.
  cbn [String.length]. rewrite Nat.sub_1_r. simpl Nat.pred.
  rewrite remove_from_skip. by apply remove_from_absent.
Qed.

(** C9, as the code has it: when there are orphans, the listing on the
    terminal has been printed and the file can be written, the report is
    written anew with the seven lines of the header and then one line for
    each entry of the sorted list, in its order; each path begins with the
    download directory, and where the directory does not occur in the rest
    of the path the line shows that rest.  With no orphans the file is not
    opened. *)
Theorem report_written_when_orphans fb encodes {World}
    (rm : string → World → bool * World) ts d tg r c w :
  torrents_halt ts = true →
  target_ok tg = true →
  d ≠ "" →
  ∃ o, main fb encodes rm (Some (Some ts)) d tg true r c w = Returns o ∧
       match result o with
       | [] => report_file o = Untouched
       | _ :: _ =>
           listing_prints encodes d (result o) = true →
           report_file o =
             Written (report_header fb d (result o) (total o)
                      ++ map (report_line fb d) (result o))
       end ∧
       length (report_header fb d (result o) (total o)) = 7 ∧
       Forall (fun e =>
                 ∃ rel, fst e = d +:+ rel ∧
                        (contains d rel = false →
                         report_line fb d e
                         = rjust10 (fb (snd e)) +:+ " - " +:+ rel))
              (result o).
Proof.
  intros H Hok Hd.
  destruct (warnings_print encodes (live_paths ts) (walk_target d tg)) eqn:Hpr.
  - destruct (main_scanned fb encodes rm ts d tg true r c w H Hpr)
      as (o & Ho & Hr & _ & Hf).
    exists o. split; [done|].
    split.
    { destruct (result o); [done|]. intros Hl. by rewrite Hf, Hl. }
    split; [done|].
    rewrite Hr, sort_desc_perm.
    eapply Forall_impl;
      [by apply orphans_start_with, walk_target_starts_with|].
    intros [p n] [rel Hp]%starts_with_split. simpl in Hp. subst p.
    exists rel. split; [done|]. intros Hrel.
    unfold report_line. simpl. by rewrite display_path_relative.
  - destruct (main_aborted fb encodes rm ts d tg true r c w H Hpr) as [out Ho].
    eexists. split; [exact Ho|]. simpl. split; [done|]. split; [done|].
    constructor.
Qed.

Lemma report_written_when_orphans_witness :
  ∃ o, main Sample.bytes Sample.stdout Sample.remove (Some (Some [Sample.movie]))
         "/dl/" (Directory Sample.disk) true (Some "no") (Some "") ∅ = Returns o ∧
       match result o with
       | [] => report_file o = Untouched
       | _ :: _ =>
           listing_prints Sample.stdout "/dl/" (result o) = true →
           report_file o =
             Written (report_header Sample.bytes "/dl/" (result o) (total o)
                      ++ map (report_line Sample.bytes "/dl/") (result o))
       end ∧
       length (report_header Sample.bytes "/dl/" (result o) (total o)) = 7 ∧
       Forall (fun e =>
                 ∃ rel, fst e = "/dl/" +:+ rel ∧
                        (contains "/dl/" rel = false →
                         report_line Sample.bytes "/dl/" e
                         = rjust10 (Sample.bytes (snd e)) +:+ " - " +:+ rel))
              (result o).
Proof.
  apply (report_written_when_orphans Sample.bytes Sample.stdout Sample.remove
           [Sample.movie]).
  - vm_compute. reflexivity.
  - vm_compute. reflexivity.
  - discriminate.
Defined.

(** C9 as stated fails: a run that finds no orphan leaves the report file
    as it was, and a path that holds the download directory a second time
    is not shown relative to it. *)
Lemma report_not_always_rewritten :
  main Sample.bytes Sample.stdout Sample.remove (Some (Some [Sample.movie])) "/dl/"
    (Directory (Dir [] [("movie", Dir [("a.mkv", Some 1000%N)] [])]))
    true (Some "no") (Some "") ∅
  = Returns (Outcome 0 [] 0 Untouched None [] ∅) ∧
  report_line Sample.bytes "/dl/" ("/dl/other/dl/z", 0%N) = "       0 B - otherz".
Proof. split; vm_compute; reflexivity. Qed.

(** ** A missing download directory *)

(** C2 fails on the code: with nothing at the download directory the scan
    prints its error and returns the empty list and 0, and [main] goes on
    to its normal end with exit status 0. *)
Theorem missing_directory_ends_normally fb encodes {World}
    (rm : string → World → bool * World) cw r c w :
  scan_torrents encodes (Some [Sample.movie]) (trailing_slash "/nowhere") Missing
    = Returns (Some ([], 0%N), [ErrNoDirectory "/nowhere/"]) ∧
  main fb encodes rm (Some (Some [Sample.movie])) (trailing_slash "/nowhere") Missing
    cw r c w
    = Returns (Outcome 0 [] 0 Untouched None [ErrNoDirectory "/nowhere/"] w).
Proof. split; vm_compute; reflexivity. Qed.

(** ** Save paths the loop over the parents comes back to *)

Lemma rstrip_while_app_all f a b :
  Path.rstrip_while f b = "" →
  Path.rstrip_while f (a +:+ b) = Path.rstrip_while f a.
Proof.
  intros Hb. induction a as [|x a IH]; [done|].
  rewrite append_cons. simpl. by rewrite IH.
Qed.

Lemma rstrip_while_keep f a c :
  f c = false →
  Path.rstrip_while f (a +:+ String c "") = a +:+ String c "".
Proof.
  intros Hc. induction a as [|x a IH].
  - simpl. by rewrite Hc.
  - rewrite append_cons. simpl. rewrite IH. by destruct a.
Qed.

Lemma rstrip_while_none f s :
  sep_free s = true → (∀ c, Path.is_sep c = false → f c = true) →
  Path.rstrip_while f s = "".
Proof.
  intros Hs Hf. induction s as [|c s IH]; [done|]. simpl in *.
  apply andb_true_iff in Hs as [Hc Hs]. apply negb_true_iff in Hc.
  by rewrite IH, Hf.
Qed.

Lemma rstrip_while_all_sep s :
  Path.all_sep s = true →
  Path.rstrip_while (fun c => negb (Path.is_sep c)) s = s.
Proof.
  induction s as [|c s IH]; [done|]. simpl.
  intros [Hc Hs]%andb_true_iff. rewrite IH by done.
  destruct s; [|done]. by rewrite Hc.
Qed.

Lemma all_sep_app a b : Path.all_sep (a +:+ b) = Path.all_sep a && Path.all_sep b.
Proof.
  induction a as [|x a IH]; [done|].
  rewrite append_cons. simpl. by rewrite IH, andb_assoc.
Qed.

Lemma ends_plain_not_all_sep q : ends_plain q → Path.all_sep q = false.
Proof.
  intros (s0 & c & -> & Hc). rewrite all_sep_app. simpl. rewrite Hc.
  by rewrite andb_false_r.
Qed.

Lemma ends_plain_nonempty q : ends_plain q → q ≠ "".
Proof. intros (s0 & c & -> & _). by destruct s0. Qed.

Lemma ends_plain_app a b : ends_plain b → ends_plain (a +:+ b).
Proof.
  intros (s0 & c & -> & Hc). exists (a +:+ s0), c.
  by rewrite string_app_assoc.
Qed.

Lemma ends_plain_intro s :
  s ≠ "" → Path.ends_with_sep s = false → ends_plain s.
Proof.
  induction s as [|x s IH]; [done|]. intros _ He.
  destruct s as [|y s].
  - exists "", x. done.
  - destruct IH as (s0 & c & E & Hc); [done|done|].
    exists (String x s0), c. by rewrite append_cons, <- E.
Qed.

Lemma sep_free_ends s : sep_free s = true → Path.ends_with_sep s = false.
Proof.
  induction s as [|x s IH]; [done|]. simpl.
  intros [Hx Hs]%andb_true_iff. apply negb_true_iff in Hx.
  destruct s; [done|]. by apply IH.
Qed.

Lemma component_ends_plain c : component c = true → ends_plain c.
Proof.
  unfold component. intros [Hne Hs]%andb_true_iff.
  apply negb_true_iff, bool_decide_eq_false in Hne.
  apply ends_plain_intro; [done|]. by apply sep_free_ends.
Qed.

Lemma component_sep_free c : component c = true → sep_free c = true.
Proof. unfold component. by intros [_ ?]%andb_true_iff. Qed.

Lemma rstrip_sep_plain q :
  ends_plain q → Path.rstrip_while Path.is_sep q = q.
Proof. intros (s0 & c & -> & Hc). by apply rstrip_while_keep. Qed.

(** [os.path.dirname(q + "/" + c)] is [q]. *)
Lemma dirname_step q c :
  ends_plain q → component c = true →
  Path.dirname (q +:+ String Path.sep c) = q.
Proof.
  intros Hq Hc. unfold Path.dirname.
  change (q +:+ String Path.sep c) with (q +:+ (String Path.sep "" +:+ c)).
  rewrite <- string_app_assoc.
  rewrite rstrip_while_app_all
    by (apply rstrip_while_none;
        [by apply component_sep_free|by intros ? ->]).
  rewrite rstrip_while_keep by done.
  rewrite all_sep_app, (ends_plain_not_all_sep q Hq). simpl.
  assert (q +:+ String Path.sep "" ≠ "") as Hne by (by destruct q).
  rewrite bool_decide_eq_false_2 by done. simpl.
  rewrite rstrip_while_app_all by done. by apply rstrip_sep_plain.
Qed.

(** [os.path.dirname(s + c)] is [s] when [s] is made of separators. *)
Lemma dirname_root s c :
  Path.all_sep s = true → component c = true → Path.dirname (s +:+ c) = s.
Proof.
  intros Hs Hc. unfold Path.dirname.
  rewrite rstrip_while_app_all
    by (apply rstrip_while_none;
        [by apply component_sep_free|by intros ? ->]).
  rewrite rstrip_while_all_sep by done. rewrite Hs. simpl.
  by rewrite andb_false_r.
Qed.

Lemma descend_snoc q cs c :
  descend q (cs ++ [c]) = descend q cs +:+ String Path.sep c.
Proof. unfold descend. by rewrite foldl_app. Qed.

Lemma descend_ends_plain q cs :
  ends_plain q → Forall (fun c => component c = true) cs →
  ends_plain (descend q cs).
Proof.
  intros Hq Hcs. revert q Hq. induction Hcs as [|c cs Hc _ IH]; intros q Hq;
    [done|].
  apply IH.
  change (q +:+ String Path.sep c) with (q +:+ (String Path.sep "" +:+ c)).
  by apply ends_plain_app, ends_plain_app, component_ends_plain.
Qed.


Lemma descend_slashed q c cs :
  descend q (c :: cs) = q +:+ String Path.sep (slashed (c :: cs)).
Proof.
  revert q c. induction cs as [|c2 cs IH]; intros q c; [done|].
  change (descend q (c :: c2 :: cs))
    with (descend (q +:+ String Path.sep c) (c2 :: cs)).
  rewrite IH. cbn [slashed].
  change (q +:+ String Path.sep c) with (q +:+ (String Path.sep "" +:+ c)).
  rewrite !string_app_assoc. done.
Qed.



Lemma all_sep_ends s : Path.all_sep s = true → s = "" ∨ Path.ends_with_sep s = true.
Proof.
  induction s as [|x s IH]; [by left|]. simpl.
  intros [Hx Hs]%andb_true_iff. right.
  destruct s; [done|]. by destruct (IH Hs).
Qed.

Lemma slashed_relative c cs :
  component c = true → Path.starts_with_sep (slashed (c :: cs)) = false.
Proof.
  intros Hc. pose proof (component_not_absolute c Hc).
  destruct c; [done|]. by destruct cs.
Qed.



(** A file whose parents do not climb back keeps the loop running for any
    number of passes. *)
Lemma file_hangs_forever sp f dirs :
  file_halts sp f = false →
  ∀ n, parents_within n sp (Path.dirname (Path.join sp f), dirs) = None.
Proof.
  unfold file_halts. intros H%bool_decide_eq_false n.
  eapply parents_within_never; [done|].
  destruct (parents_within _ _ (_, dirs)) eqn:E; [|done].
  exfalso. apply H. eapply parents_within_dirs. by rewrite E.
Qed.

(** A save path with a trailing separator: the parent [/dl/movie] differs
    from [/dl/movie/], the loop goes up to [/] and stays there. *)
Lemma trailing_separator_hangs :
  file_halts "/dl/movie/" "a.mkv" = false ∧
  scan_torrents Sample.stdout (Some [Sample.trailing]) "/dl/"
    (Directory Sample.disk) = Hangs.
Proof. split; vm_compute; reflexivity. Qed.

(** * Further properties *)

(** ** [os.path.dirname] and [os.path.join] *)

Lemma rstrip_sep_no_trailing s :
  Path.ends_with_sep (Path.rstrip_while Path.is_sep s) = false.
Proof.
  induction s as [|c s IH]; [done|]. simpl.
  destruct (Path.rstrip_while Path.is_sep s) as [|a r] eqn:E.
  - destruct (Path.is_sep c) eqn:Hc; [done|]. simpl. exact Hc.
  - exact IH.
Qed.

Lemma rstrip_sep_empty s :
  Path.rstrip_while Path.is_sep s = "" → Path.all_sep s = true.
Proof.
  induction s as [|c s IH]; [done|]. simpl.
  destruct (Path.rstrip_while Path.is_sep s) as [|a r] eqn:E; [|done].
  destruct (Path.is_sep c); [|done]. intros _. by rewrite IH.
Qed.

Lemma dirname_cases p :
  Path.ends_with_sep (Path.dirname p) = false ∨ Path.all_sep (Path.dirname p) = true.
Proof.
  unfold Path.dirname.
  destruct (bool_decide (_ = "")) eqn:E1; simpl.
  - apply bool_decide_eq_true in E1. rewrite E1. by right.
  - destruct (Path.all_sep _) eqn:E2; simpl; [by right|].
    left. apply rstrip_sep_no_trailing.
Qed.

(** X3: what [os.path.dirname] returns does not end with a separator,
    unless it is made of separators only (the root); so it never equals a
    save path that ends with a separator and holds another character. *)
Theorem dirname_no_trailing_separator p :
  (Path.ends_with_sep (Path.dirname p) = false
   ∨ Path.all_sep (Path.dirname p) = true) ∧
  ∀ save_path, Path.ends_with_sep save_path = true →
               Path.all_sep save_path = false →
               Path.dirname p ≠ save_path.
Proof.
  split; [apply dirname_cases|].
  intros save_path H1 H2 E.
  destruct (dirname_cases p) as [H|H]; rewrite E in H; congruence.
Qed.

Lemma dirname_no_trailing_separator_witness :
  Path.dirname "/dl/movie/a.mkv" ≠ "/dl/movie/" ∧ Path.dirname "/a" = "/".
Proof.
  split; [|reflexivity].
  apply (dirname_no_trailing_separator "/dl/movie/a.mkv"); reflexivity.
Defined.

Lemma dirname_of_all_sep p : Path.all_sep p = true → Path.dirname p = p.
Proof.
  intros H. unfold Path.dirname. rewrite rstrip_while_all_sep by done.
  rewrite H. simpl. by rewrite andb_false_r.
Qed.

Lemma all_sep_empty_or_not s : Path.all_sep s = false → s ≠ "".
Proof. by intros H ->. Qed.

Lemma string_length_app (a b : string) :
  String.length (a +:+ b) = String.length a + String.length b.
Proof.
  induction a as [|x a IH]; [done|]. rewrite append_cons. simpl. by rewrite IH.
Qed.

Lemma dirname_moves p : Path.all_sep p = false → Path.dirname p ≠ p.
Proof.
  intros Hall E.
  destruct (dirname_cases p) as [H|H]; rewrite E in H; [|congruence].
  pose proof (ends_plain_intro p (all_sep_empty_or_not _ Hall) H)
    as (s0 & c & -> & Hc).
  assert (String.length (Path.dirname (s0 +:+ String c ""))
          < String.length (s0 +:+ String c "")); [|rewrite E in *; lia].
  eapply Nat.le_lt_trans with (String.length s0).
  - unfold Path.dirname.
    rewrite (rstrip_while_app_all _ s0 (String c ""))
      by (simpl; by rewrite Hc).
    pose proof (rstrip_while_length (fun c => negb (Path.is_sep c)) s0) as H1.
    destruct (_ && _); [|done].
    etrans; [apply rstrip_while_length|done].
  - rewrite string_length_app. simpl. lia.
Qed.

(** X1: [os.path.dirname] gives its argument back exactly on the strings
    made of separators only (the empty string among them); on any other
    string the result is strictly shorter. *)
Theorem dirname_fixed_or_shorter p :
  (Path.dirname p = p ↔ Path.all_sep p = true) ∧
  (Path.all_sep p = false →
   String.length (Path.dirname p) < String.length p).
Proof.
  split.
  - split; [|apply dirname_of_all_sep].
    intros E. destruct (Path.all_sep p) eqn:H; [done|].
    by destruct (dirname_moves p H).
  - intros H. by apply dirname_shorter, dirname_moves.
Qed.

Lemma join_component q c :
  component c = true →
  Path.join q c =
    if bool_decide (q = "") || Path.ends_with_sep q then q +:+ c
    else q +:+ String Path.sep c.
Proof.
  intros Hc. unfold Path.join. by rewrite component_not_absolute.
Qed.

(** X2: for the name [c] of a directory entry, the parent of
    [os.path.join(q, c)] is [q] again exactly when [q] does not end with a
    separator or is made of separators only. *)
Theorem dirname_join_round_trip q c :
  component c = true →
  (Path.dirname (Path.join q c) = q ↔ climbable q = true).
Proof.
  intros Hc. split.
  - intros E. unfold climbable.
    destruct (dirname_cases (Path.join q c)) as [H|H]; rewrite E in H;
      rewrite H; [done|apply orb_true_r].
  - intros Hq. rewrite join_component by done.
    destruct (Path.all_sep q) eqn:Hall.
    + assert (bool_decide (q = "") || Path.ends_with_sep q = true) as ->.
      { destruct (all_sep_ends q Hall) as [-> | ->]; [done|apply orb_true_r]. }
      by apply dirname_root.
    + unfold climbable in Hq. rewrite Hall, orb_false_r in Hq.
      apply negb_true_iff in Hq.
      pose proof (all_sep_empty_or_not _ Hall) as Hne.
      rewrite Hq, bool_decide_eq_false_2 by done. cbn [orb].
      apply dirname_step; [by apply ends_plain_intro|done].
Qed.

Lemma dirname_join_round_trip_witness :
  Path.dirname (Path.join "/dl/movie" "a.mkv") = "/dl/movie"
  ↔ climbable "/dl/movie" = true.
Proof. apply (dirname_join_round_trip "/dl/movie" "a.mkv"). reflexivity. Defined.

(** ** The loop over the parents, in general *)

Lemma parents_within_more n m sp st dirs :
  parents_within n sp st = Some dirs → n ≤ m →
  parents_within m sp st = Some dirs.
Proof.
  revert m st. induction n as [|n IH]; intros m st H Hm.
  - destruct m; simpl in *; destruct (parents_body sp st); done.
  - destruct m as [|m]; [lia|]. simpl in *.
    destruct (parents_body sp st); [|done]. apply IH; [done|lia].
Qed.

(** The loop over the parents is left within [String.length p] passes or
    never. *)
Lemma parents_loop_cases sp p dirs :
  (∃ dirs', parents_within (String.length p) sp (p, dirs) = Some dirs' ∧
            (∀ n, String.length p ≤ n → parents_within n sp (p, dirs) = Some dirs') ∧
            track_parents (String.length p) sp p dirs = Returns dirs') ∨
  ((∀ n, parents_within n sp (p, dirs) = None) ∧
   track_parents (String.length p) sp p dirs = Hangs).
Proof.
  rewrite track_parents_within by done.
  destruct (parents_within (String.length p) sp (p, dirs)) as [dirs'|] eqn:E.
  - left. exists dirs'. split; [done|]. split; [|done].
    intros n Hn. by eapply parents_within_more.
  - right. split; [|done]. by eapply parents_within_never.
Qed.

(** X4: the loop over the parents either is left within as many passes as
    [parent] has characters, and [track_parents] returns the set it leaves
    with, or it is not left after any number of passes, and [track_parents]
    hangs. *)
Theorem parents_loop_ends_or_never sp p dirs :
  (∃ dirs', parents_within (String.length p) sp (p, dirs) = Some dirs' ∧
            (∀ n, String.length p ≤ n → parents_within n sp (p, dirs) = Some dirs') ∧
            track_parents (String.length p) sp p dirs = Returns dirs') ∨
  ((∀ n, parents_within n sp (p, dirs) = None) ∧
   track_parents (String.length p) sp p dirs = Hangs).
Proof. apply parents_loop_cases. Qed.



(** ** Save paths with a trailing separator *)

Lemma rstrip_keeps_head f c r :
  f c = false → ∃ r', Path.rstrip_while f (String c r) = String c r'.
Proof.
  intros Hc. simpl. destruct (Path.rstrip_while f r); rewrite ?Hc; eauto.
Qed.

Lemma dirname_absolute p :
  Path.starts_with_sep p = true → Path.starts_with_sep (Path.dirname p) = true.
Proof.
  destruct p as [|c r]; [done|]. simpl. intros Hc.
  unfold Path.dirname.
  destruct (rstrip_keeps_head (fun c => negb (Path.is_sep c)) c r) as [r' ->];
    [by rewrite Hc|].
  destruct (_ && _) eqn:E; [|done].
  apply andb_true_iff in E as [_ E]. apply negb_true_iff in E.
  simpl. destruct (Path.rstrip_while Path.is_sep r') eqn:E'; [|done].
  apply rstrip_sep_empty in E'. simpl in E. by rewrite Hc, E' in E.
Qed.

Lemma starts_with_sep_app a b :
  Path.starts_with_sep a = true → Path.starts_with_sep (a +:+ b) = true.
Proof. by destruct a. Qed.

Lemma join_absolute sp f :
  Path.starts_with_sep sp = true → Path.starts_with_sep (Path.join sp f) = true.
Proof.
  intros H. unfold Path.join.
  destruct (Path.starts_with_sep f) eqn:Hf; [done|].
  destruct (_ || _); by apply starts_with_sep_app.
Qed.

(** With an absolute save path that ends with a separator, the parents are
    never empty and never the save path: the loop is not left. *)
Lemma parents_never_reach sp :
  Path.ends_with_sep sp = true → Path.all_sep sp = false →
  ∀ n p dirs,
    Path.starts_with_sep p = true →
    parents_within n sp (Path.dirname p, dirs) = None.
Proof.
  intros He Ha n. induction n as [|n IH]; intros p dirs Hp;
    cbn [parents_within parents_body];
    pose proof (dirname_absolute p Hp) as Habs;
    (assert (Path.dirname p ≠ "") as H1 by (intros E; by rewrite E in Habs));
    (assert (Path.dirname p ≠ sp) as H2
       by (intros E; destruct (dirname_cases p) as [H|H]; rewrite E in H;
           congruence));
    rewrite !bool_decide_eq_false_2 by done; simpl; [done|].
  by apply IH.
Qed.

(** X6: a torrent with at least one file whose save path is absolute and
    ends with a separator (the root apart) makes the scan loop forever,
    whatever the other torrents and the directory are. *)
Theorem scan_hangs_on_trailing_separator encodes ts t f fs d tg :
  t ∈ ts →
  files t = Some (f :: fs) →
  Path.starts_with_sep (save_path t) = true →
  Path.ends_with_sep (save_path t) = true →
  Path.all_sep (save_path t) = false →
  scan_torrents encodes (Some ts) d tg = Hangs ∧
  ∀ n dirs,
    parents_within n (save_path t)
      (Path.dirname (Path.join (save_path t) f), dirs) = None.
Proof.
  intros Ht Hf Habs He Ha.
  assert (∀ n dirs,
            parents_within n (save_path t)
              (Path.dirname (Path.join (save_path t) f), dirs) = None) as Hnever.
  { intros n dirs. apply parents_never_reach; [done|done|].
    by apply join_absolute. }
  split; [|done].
  apply scan_torrents_hangs. apply not_true_is_false. intros Hall.
  unfold torrents_halt in Hall. rewrite forallb_forall in Hall.
  specialize (Hall t). rewrite <- list_elem_of_In in Hall.
  specialize (Hall Ht). unfold torrent_halts in Hall. rewrite Hf in Hall.
  simpl in Hall. apply andb_true_iff in Hall as [Hall _].
  unfold file_halts in Hall. apply bool_decide_eq_true in Hall.
  rewrite Hnever in Hall. by destruct Hall.
Qed.

Lemma scan_hangs_on_trailing_separator_witness :
  scan_torrents Sample.stdout (Some [Sample.movie; Sample.trailing]) "/dl/"
    (Directory Sample.disk) = Hangs ∧
  ∀ n dirs,
    parents_within n (save_path Sample.trailing)
      (Path.dirname (Path.join (save_path Sample.trailing) "a.mkv"), dirs) = None.
Proof.
  apply (scan_hangs_on_trailing_separator Sample.stdout
           [Sample.movie; Sample.trailing] Sample.trailing "a.mkv" []).
  - apply list_elem_of_In. simpl. tauto.
  - reflexivity.
  - reflexivity.
  - reflexivity.
  - reflexivity.
Defined.

(** ** The directories the first loop records *)

Lemma between_snoc q cs c :
  between q (cs ++ [c]) = between q cs ++ [descend q (cs ++ [c])].
Proof.
  revert q. induction cs as [|c0 cs IH]; intros q; [done|].
  simpl. by rewrite IH.
Qed.

Lemma descend_longer q cs :
  cs ≠ [] → String.length q < String.length (descend q cs).
Proof.
  revert q. induction cs as [|c cs IH]; intros q Hne; [done|].
  change (descend q (c :: cs)) with (descend (q +:+ String Path.sep c) cs).
  assert (String.length q < String.length (q +:+ String Path.sep c)) as H.
  { rewrite string_length_app. simpl. lia. }
  destruct cs as [|c2 cs]; [done|].
  etrans; [exact H|]. by apply IH.
Qed.

(** From [q/c1/.../cn] the loop goes up to [q] and leaves, having recorded
    every directory from [q/c1] on. *)
Lemma parents_of_descend sp cs :
  ends_plain sp → Forall (fun c => component c = true) cs →
  ∀ dirs, parents_within (length cs) sp (descend sp cs, dirs)
          = Some (list_to_set (between sp cs) ∪ dirs).
Proof.
  intros Hsp. induction cs as [|c cs IH] using rev_ind; intros Hcs dirs.
  - simpl. rewrite (bool_decide_eq_true_2 (sp = sp)) by done.
    rewrite orb_true_r. simpl. f_equal. set_solver.
  - apply Forall_app in Hcs as [Hcs Hc]. apply Forall_inv in Hc.
    rewrite length_app, Nat.add_1_r. cbn [parents_within parents_body].
    assert (descend sp (cs ++ [c]) ≠ "") as H1.
    { apply ends_plain_nonempty, descend_ends_plain; [done|].
      apply Forall_app. split; [done|by constructor]. }
    assert (descend sp (cs ++ [c]) ≠ sp) as H2.
    { intros E. pose proof (descend_longer sp (cs ++ [c])) as Hl.
      rewrite E in Hl. destruct cs; simpl in Hl; specialize (Hl ltac:(done)); lia. }
    rewrite !bool_decide_eq_false_2 by done. simpl.
    rewrite descend_snoc, dirname_step by (by try apply descend_ends_plain).
    rewrite IH by done. f_equal.
    rewrite between_snoc, descend_snoc, list_to_set_app_L. set_solver.
Qed.

(** X7: for a save path that does not end with a separator and a file
    [c1/.../cn/c], the body of the loop over the files adds the joined path
    to [active_files] and to [active_dirs] exactly the directories
    [save_path/c1], ..., [save_path/c1/.../cn]; the save path itself is not
    added. *)
Theorem track_file_records_ancestors sp cs c files dirs :
  sp ≠ "" → Path.ends_with_sep sp = false →
  Forall (fun c => component c = true) (cs ++ [c]) →
  track_file sp (files, dirs) (slashed (cs ++ [c])) =
    Returns ({[descend sp (cs ++ [c])]} ∪ files,
             list_to_set (between sp cs) ∪ dirs) ∧
  sp ∉ between sp cs.
Proof.
  intros Hne He Hall.
  pose proof (ends_plain_intro sp Hne He) as Hsp.
  pose proof Hall as Hall'.
  apply Forall_app in Hall' as [Hcs Hc]. apply Forall_inv in Hc.
  assert (Path.join sp (slashed (cs ++ [c])) = descend sp (cs ++ [c])) as Hj.
  { destruct (cs ++ [c]) as [|c0 l] eqn:E; [by destruct cs|].
    rewrite descend_slashed. unfold Path.join.
    rewrite slashed_relative by (by apply Forall_inv in Hall).
    by rewrite He, bool_decide_eq_false_2. }
  split.
  - unfold track_file. rewrite Hj. simpl.
    rewrite descend_snoc, dirname_step by (by try apply descend_ends_plain).
    rewrite track_parents_within by done.
    destruct (parents_loop_cases sp (descend sp cs) dirs)
      as [(d' & E & Hmore & _)|[Hnever _]].
    + rewrite E. simpl. do 2 f_equal.
      pose proof (parents_of_descend sp cs Hsp Hcs dirs) as Hp.
      eapply parents_within_more in Hp; [|apply Nat.le_max_l].
      rewrite (Hmore (Nat.max (length cs) (String.length (descend sp cs))))
        in Hp by apply Nat.le_max_r.
      congruence.
    + specialize (Hnever (length cs)).
      by rewrite parents_of_descend in Hnever.
  - clear Hall Hc Hj. intros Hin.
    induction cs as [|c0 cs IH] using rev_ind; [by apply elem_of_nil in Hin|].
    apply Forall_app in Hcs as [Hcs Hc0].
    rewrite between_snoc in Hin. apply elem_of_app in Hin as [Hin|Hin].
    + by apply IH.
    + apply list_elem_of_singleton in Hin.
      pose proof (descend_longer sp (cs ++ [c0])) as Hl.
      rewrite <- Hin in Hl. destruct cs; simpl in Hl; specialize (Hl ltac:(done)); lia.
Qed.

Lemma track_file_records_ancestors_witness :
  track_file "/dl" (∅, ∅) (slashed (["show"; "s1"] ++ ["e1.mkv"])) =
    Returns ({[descend "/dl" (["show"; "s1"] ++ ["e1.mkv"])]} ∪ ∅,
             list_to_set (between "/dl" ["show"; "s1"]) ∪ ∅) ∧
  "/dl" ∉ between "/dl" ["show"; "s1"].
Proof.
  apply (track_file_records_ancestors "/dl" ["show"; "s1"] "e1.mkv").
  - discriminate.
  - reflexivity.
  - repeat constructor.
Defined.

(** ** [main]: what it does and what it leaves alone *)

Lemma orphans_of_all_live active l :
  (∀ f, f ∈ l → fst f ∈ active) →
  orphans_of active l = [] ∧ warnings_of active l = [].
Proof.
  intros H. induction l as [|f l IH]; [done|].
  rewrite orphans_of_cons, warnings_of_cons.
  rewrite bool_decide_eq_true_2 by (apply H; left).
  simpl. apply IH. intros g Hg. apply H. by right.
Qed.

Lemma warnings_print_all_live encodes active l :
  (∀ f, f ∈ l → fst f ∈ active) → warnings_print encodes active l = true.
Proof.
  intros H. unfold warnings_print. apply forallb_forall. intros f Hf.
  apply list_elem_of_In in Hf. destruct (snd f); [done|].
  by rewrite bool_decide_eq_true_2 by by apply H.
Qed.

(** X8: when the first loop returns and every file the walk yields is the
    joined path of some torrent (an empty or unlistable directory
    included), [main] reports nothing: no report file is written and
    [os.remove] is not called, whatever the terminal can print and the
    answers to the prompts would be. *)
Theorem nothing_done_without_orphans fb encodes {World}
    (rm : string → World → bool * World) ts d tg cw r c w :
  torrents_halt ts = true →
  (∀ f, f ∈ walk_target d tg → fst f ∈ live_paths ts) →
  main fb encodes rm (Some (Some ts)) d tg cw r c w =
    Returns (Outcome 0 [] 0 Untouched None
               (map WarnTorrentFiles (failed_torrents ts)
                ++ match tg with Missing => [ErrNoDirectory d] | _ => [] end)
               w).
Proof.
  intros H Hlive. unfold main.
  rewrite scan_torrents_halts by (done || by apply warnings_print_all_live).
  destruct (orphans_of_all_live _ _ Hlive) as [-> ->]. simpl.
  by destruct tg.
Qed.

Lemma nothing_done_without_orphans_witness :
  main Sample.bytes Sample.stdout Sample.remove
    (Some (Some [Sample.movie; Sample.broken]))
    "/dl/" (Directory (Dir [] [("movie", Dir [("a.mkv", None)] [])]))
    true (Some "yes") (Some "DELETE") ∅ =
    Returns (Outcome 0 [] 0 Untouched None
               (map WarnTorrentFiles (failed_torrents [Sample.movie; Sample.broken])
                ++ []) ∅).
Proof.
  apply (nothing_done_without_orphans Sample.bytes Sample.stdout Sample.remove
           [Sample.movie; Sample.broken] "/dl/"
           (Directory (Dir [] [("movie", Dir [("a.mkv", None)] [])]))).
  - vm_compute. reflexivity.
  - intros f Hf. apply list_elem_of_In in Hf. simpl in Hf.
    destruct Hf as [<-|[]].
    apply (bool_decide_unpack _). vm_compute. exact I.
Defined.

(** X9: unless the first answer, once in lower case and stripped, is
    [yes] and the second, as typed, is [DELETE], [os.remove] is never
    called: the file system is as it was and no deletion is reported. *)
Theorem no_deletion_without_both_answers fb encodes {World}
    (rm : string → World → bool * World) client d tg cw r c w o :
  r ≠ Some "yes" ∨ c ≠ Some "DELETE" →
  main fb encodes rm client d tg cw r c w = Returns o →
  deleted o = None ∧ world o = w.
Proof.
  intros Hans.
  destruct client as [info|]; unfold main; [|by intros [= <-]].
  destruct (scan_torrents encodes info d tg) as [|[[[found size]|] out]];
    simpl; [done| |by intros [= <-]].
  destruct (sort_desc found) as [|e l]; [by intros [= <-]|].
  destruct (listing_prints encodes d (e :: l)); simpl; [|by intros [= <-]].
  destruct cw; (destruct r as [r|]; [|by intros [= <-]]);
    (case_bool_decide as Hr; [|by intros [= <-]]);
    (destruct c as [c|]; [|by intros [= <-]]);
    (case_bool_decide as Hc; [|by intros [= <-]]);
    subst; by destruct Hans.
Qed.

Lemma no_deletion_without_both_answers_witness :
  deleted (Outcome 0 Sample.leftovers 250
             (Written (report_lines Sample.bytes "/dl/" Sample.leftovers 250))
             None [WarnAccess "/dl/other/dl/z"] (∅ : gset string)) = None ∧
  world (Outcome 0 Sample.leftovers 250
           (Written (report_lines Sample.bytes "/dl/" Sample.leftovers 250))
           None [WarnAccess "/dl/other/dl/z"] (∅ : gset string)) = ∅.
Proof.
  apply (no_deletion_without_both_answers Sample.bytes Sample.stdout Sample.remove
           (Some (Some [Sample.movie])) "/dl/" (Directory Sample.nested)
           true (Some "yes") (Some "delete") ∅).
  - right. discriminate.
  - vm_compute. reflexivity.
Defined.




(** X11: the sort keeps the entries of one size in the order in which the
    walk found them. *)
Theorem sort_is_stable n l :
  filter (fun e => snd e = n) (sort_desc l) = filter (fun e => snd e = n) l.
Proof. apply sort_desc_stable. Qed.

(** ** The deletion loop: what it prints *)

Lemma failed_paths_zip (l : list (string * N)) (att : list bool) :
  map (fun x : string * N * bool => ErrDelete (fst (fst x)))
      (filter (fun x => snd x = false) (zip l att))
  = map ErrDelete (failed_paths l att).
Proof.
  revert att. induction l as [|e l IH]; intros [|[|] att]; simpl; try done.
  - rewrite filter_cons_False by (simpl; congruence). apply IH.
  - f_equal. apply IH.
Qed.

Lemma failed_paths_length (l : list (string * N)) (att : list bool) :
  length att = length l →
  length (failed_paths l att) = length (filter (fun b => b = false) att).
Proof.
  revert att. induction l as [|e l IH]; intros [|[|] att] Hlen; simpl in *;
    try done.
  - rewrite filter_cons_False by done. apply IH. lia.
  - rewrite IH; [done|lia].
Qed.

Lemma filter_bool_total (att : list bool) :
  length (filter (fun b => b = true) att)
  + length (filter (fun b => b = false) att) = length att.
Proof.
  induction att as [|[|] att IH]; [done| |].
  - rewrite filter_cons_True, filter_cons_False by done. simpl. lia.
  - rewrite filter_cons_False, filter_cons_True by done. simpl. lia.
Qed.

(** X12: when the error lines can be printed, the deletion loop prints
    one error for each entry whose removal failed, naming its path, in the
    order of the list; each entry is counted once, as deleted or as
    failed. *)
Theorem deletion_reports_each_failure encodes {World}
    (rm : string → World → bool * World) (orphans : list (string * N)) (w : World) :
  errors_print encodes rm orphans w = true →
  ∃ d, delete_all encodes rm orphans w = Next d ∧
       errors d = map ErrDelete (failed_paths orphans (attempts rm orphans w)) ∧
       N.of_nat (length (errors d)) = failed_count (counts d) ∧
       (deleted_count (counts d) + failed_count (counts d))%N
       = N.of_nat (length orphans).
Proof.
  intros Hpr. unfold delete_all. rewrite delete_loop by done.
  eexists. split; [done|]. simpl.
  pose proof (attempts_length rm orphans w) as Hlen.
  rewrite failed_paths_zip.
  split; [done|]. split.
  - rewrite length_map, failed_paths_length by done. done.
  - rewrite <- Hlen, <- (filter_bool_total (attempts rm orphans w)). lia.
Qed.

Lemma deletion_reports_each_failure_witness :
  ∃ d, delete_all Sample.stdout Sample.remove Sample.leftovers {["/dl/movie/b.nfo"]}
       = Next d ∧
       errors d
       = map ErrDelete
           (failed_paths Sample.leftovers
              (attempts Sample.remove Sample.leftovers {["/dl/movie/b.nfo"]})) ∧
       N.of_nat (length (errors d)) = failed_count (counts d) ∧
       (deleted_count (counts d) + failed_count (counts d))%N
       = N.of_nat (length Sample.leftovers).
Proof.
  apply (deletion_reports_each_failure Sample.stdout Sample.remove
           Sample.leftovers {["/dl/movie/b.nfo"]}).
  vm_compute. reflexivity.
Defined.

(** ** [get_connection_info] *)

Section PromptFacts.

Variable int_of : string → option Z.
Variable expanduser : string → string.
Variable exists_ : string → bool.
Variable isdir : string → bool.

Lemma read_port_sound answers p rest :
  Setup.read_port int_of answers = Some (p, rest) →
  (1 ≤ p ≤ 65535)%Z ∧ ∃ used, answers = used ++ rest.
Proof.
  induction answers as [|a answers IH]; [done|]. simpl.
  case_bool_decide as Ha.
  - intros [= <- <-]. split; [lia|]. by exists [a].
  - assert (Setup.read_port int_of answers = Some (p, rest) →
            (1 ≤ p ≤ 65535)%Z ∧ ∃ used, a :: answers = used ++ rest) as Hskip.
    { intros (Hp & used & ->)%IH. split; [done|]. by exists (a :: used). }
    destruct (int_of a) as [v|]; [|done].
    case_bool_decide as Hv; [|done].
    intros [= <- <-]. split; [done|]. by exists [a].
Qed.

Lemma read_nonempty_sound answers s rest :
  Setup.read_nonempty answers = Some (s, rest) →
  s ≠ "" ∧ ∃ used, answers = used ++ rest.
Proof.
  induction answers as [|a answers IH]; [done|]. simpl.
  case_bool_decide as Ha.
  - intros (Hs & used & ->)%IH. split; [done|]. by exists (a :: used).
  - intros [= <- <-]. split; [done|]. by exists [a].
Qed.

Lemma read_dir_sound n answers dir rest :
  length answers ≤ n →
  Setup.read_dir expanduser exists_ isdir answers = Some (dir, rest) →
  ∃ used, answers = used ++ rest ∧
          (exists_ dir = true ∧ isdir dir = true
           ∨ exists_ dir = false ∧ last used = Some "yes").
Proof.
  revert answers. induction n as [|n IH]; intros [|a answers] Hlen;
    simpl in *; try done; try lia.
  assert (∀ l, length l ≤ n → ∀ pre,
            Setup.read_dir expanduser exists_ isdir l = Some (dir, rest) →
            ∃ used, pre ++ l = used ++ rest ∧
                    (exists_ dir = true ∧ isdir dir = true
                     ∨ exists_ dir = false ∧ last used = Some "yes")) as Hskip.
  { intros l Hl pre (used & -> & Hd)%IH; [|done].
    exists (pre ++ used). split; [by rewrite app_assoc|].
    destruct Hd as [Hd|[Hd Hlast]]; [by left|right]. split; [done|].
    destruct used as [|u used] using rev_ind; [done|].
    by rewrite app_assoc, !last_snoc in *. }
  case_bool_decide as Ha.
  - apply (Hskip answers ltac:(lia) [a]).
  - destruct (exists_ (expanduser a)) eqn:He; simpl.
    + destruct (isdir (expanduser a)) eqn:Hi; simpl.
      * intros [= <- <-]. exists [a]. split; [done|]. by left.
      * apply (Hskip answers ltac:(lia) [a]).
    + destruct answers as [|create answers]; [done|].
      case_bool_decide as Hc.
      * intros [= <- <-]. exists [a; create]. split; [done|]. right.
        split; [done|]. by rewrite Hc.
      * simpl in Hlen. apply (Hskip answers ltac:(lia) [a; create]).
Qed.

(** X13: what [get_connection_info] returns is well formed: the host, the
    user name and the password are not empty, the port lies between 1 and
    65535, the download directory ends with a separator; the directory is
    an existing directory, or it does not exist and the last answer read
    was [yes]; the answers left are a suffix of the answers given. *)
Theorem connection_info_well_formed answers conn rest :
  Setup.get_connection_info int_of expanduser exists_ isdir answers
    = Some (conn, rest) →
  Setup.host conn ≠ "" ∧
  (1 ≤ Setup.port conn ≤ 65535)%Z ∧
  Setup.username conn ≠ "" ∧
  Setup.password conn ≠ "" ∧
  Path.ends_with_sep (Setup.download_dir conn) = true ∧
  ∃ used dir,
    answers = used ++ rest ∧
    Setup.download_dir conn = trailing_slash dir ∧
    (exists_ dir = true ∧ isdir dir = true
     ∨ exists_ dir = false ∧ last used = Some "yes").
Proof.
  unfold Setup.get_connection_info. destruct answers as [|h answers]; [done|].
  destruct (Setup.read_port int_of answers) as [[p r1]|] eqn:E1; [|done].
  simpl.
  destruct (Setup.read_nonempty r1) as [[u r2]|] eqn:E2; [|done]. simpl.
  destruct (Setup.read_nonempty r2) as [[pw r3]|] eqn:E3; [|done]. simpl.
  destruct (Setup.read_dir expanduser exists_ isdir r3) as [[dir r4]|] eqn:E4;
    [|done]. simpl.
  intros [= <- <-]. simpl.
  apply read_port_sound in E1 as (Hp & u1 & ->).
  apply read_nonempty_sound in E2 as (Hu & u2 & ->).
  apply read_nonempty_sound in E3 as (Hpw & u3 & ->).
  apply (read_dir_sound (length r3)) in E4 as (u4 & -> & Hd); [|done].
  split; [by case_bool_decide|]. split; [done|]. split; [done|].
  split; [done|]. split; [apply trailing_slash_ends|].
  exists (h :: u1 ++ u2 ++ u3 ++ u4), dir.
  split; [simpl; by rewrite <- !app_assoc|]. split; [done|].
  destruct Hd as [Hd|[Hd Hlast]]; [by left|right]. split; [done|].
  destruct u4 as [|x u4 _] using rev_ind; [done|].
  rewrite last_snoc in Hlast.
  rewrite !app_assoc, app_comm_cons, last_snoc. done.
Qed.

Lemma read_port_skips bad port_str p rest :
  Forall (Setup.bad_port int_of) bad → Setup.accepts_port int_of port_str p →
  Setup.read_port int_of (bad ++ port_str :: rest) = Some (p, rest).
Proof.
  intros Hbad Hp. induction Hbad as [|b bad [Hb1 Hb2] _ IH]; simpl.
  - destruct Hp as [[-> ->]|(Hne & -> & Hr)].
    + done.
    + rewrite bool_decide_eq_false_2 by done.
      by rewrite bool_decide_eq_true_2.
  - rewrite bool_decide_eq_false_2 by done.
    destruct (int_of b); [|done]. by rewrite bool_decide_eq_false_2.
Qed.

Lemma read_nonempty_skips empties s rest :
  Forall (fun a => a = "") empties → s ≠ "" →
  Setup.read_nonempty (empties ++ s :: rest) = Some (s, rest).
Proof.
  intros He Hs. induction He as [|e empties -> _ IH]; simpl.
  - by rewrite bool_decide_eq_false_2.
  - done.
Qed.

(** X14: the loops read on until an answer is accepted: after the host
    (empty: [localhost]), port answers that are not numbers or lie outside
    1..65535 are passed over until an empty one (8080) or a port in range;
    empty user names and passwords are passed over; a directory that exists
    and is a directory is taken at once, with a separator at its end. *)
Theorem connection_info_reads_on typed_host bad port_str p no_users user
    no_passwords pass typed_dir rest :
  Forall (Setup.bad_port int_of) bad →
  Setup.accepts_port int_of port_str p →
  Forall (fun a => a = "") no_users → user ≠ "" →
  Forall (fun a => a = "") no_passwords → pass ≠ "" →
  typed_dir ≠ "" →
  exists_ (expanduser typed_dir) = true →
  isdir (expanduser typed_dir) = true →
  Setup.get_connection_info int_of expanduser exists_ isdir
    (typed_host :: bad ++ port_str :: no_users ++ user ::
       no_passwords ++ pass :: typed_dir :: rest)
  = Some (Setup.Connection
            (if bool_decide (typed_host = "") then "localhost" else typed_host)
            p user pass (trailing_slash (expanduser typed_dir)),
          rest).
Proof.
  intros Hbad Hp Hnu Hu Hnp Hpw Hd He Hi. unfold Setup.get_connection_info.
  rewrite (read_port_skips bad port_str p) by done. simpl.
  rewrite read_nonempty_skips by done. simpl.
  rewrite read_nonempty_skips by done. simpl.
  rewrite (bool_decide_eq_false_2 (typed_dir = "")) by done.
  rewrite He, Hi. done.
Qed.

End PromptFacts.

Lemma connection_info_well_formed_witness :
  Setup.host (Setup.Connection "localhost" 8081 "bob" "pw" "/nope/") ≠ "" ∧
  (1 ≤ Setup.port (Setup.Connection "localhost" 8081 "bob" "pw" "/nope/") ≤ 65535)%Z ∧
  Setup.username (Setup.Connection "localhost" 8081 "bob" "pw" "/nope/") ≠ "" ∧
  Setup.password (Setup.Connection "localhost" 8081 "bob" "pw" "/nope/") ≠ "" ∧
  Path.ends_with_sep
    (Setup.download_dir (Setup.Connection "localhost" 8081 "bob" "pw" "/nope/")) = true ∧
  ∃ used dir,
    [""; "abc"; "70000"; "8081"; ""; "bob"; "pw"; "/dl/x"; "no"; "/nope"; "yes"; "more"]
      = used ++ ["more"] ∧
    Setup.download_dir (Setup.Connection "localhost" 8081 "bob" "pw" "/nope/")
      = trailing_slash dir ∧
    (SamplePrompts.exists_ dir = true ∧ SamplePrompts.isdir dir = true
     ∨ SamplePrompts.exists_ dir = false ∧ last used = Some "yes").
Proof.
  apply (connection_info_well_formed SamplePrompts.int_of SamplePrompts.expanduser
           SamplePrompts.exists_ SamplePrompts.isdir).
  vm_compute. reflexivity.
Defined.

Lemma connection_info_reads_on_witness :
  Setup.get_connection_info SamplePrompts.int_of SamplePrompts.expanduser
    SamplePrompts.exists_ SamplePrompts.isdir
    ("" :: ["abc"; "0"; "70000"] ++ "8081" :: [""] ++ "bob" ::
       [""; ""] ++ "pw" :: "/dl" :: ["yes"])
  = Some (Setup.Connection
            (if bool_decide (("" : string) = "") then "localhost" else "")
            8081 "bob" "pw" (trailing_slash (SamplePrompts.expanduser "/dl")),
          ["yes"]).
Proof.
  apply (connection_info_reads_on SamplePrompts.int_of SamplePrompts.expanduser
           SamplePrompts.exists_ SamplePrompts.isdir
           "" ["abc"; "0"; "70000"] "8081" 8081 [""] "bob" [""; ""] "pw" "/dl"
           ["yes"]).
  - constructor; [split; [discriminate|exact I]|].
    constructor; [split; [discriminate|change (¬ (1 ≤ 0 ≤ 65535)%Z); lia]|].
    constructor; [split; [discriminate|change (¬ (1 ≤ 70000 ≤ 65535)%Z); lia]|].
    constructor.
  - right. split; [discriminate|]. split; [reflexivity|lia].
  - repeat constructor.
  - discriminate.
  - repeat constructor.
  - discriminate.
  - discriminate.
  - reflexivity.
  - reflexivity.
Defined.

(** ** [format_bytes] *)

Lemma to_float_exact n : (n < 2 ^ 53)%N → Human.to_float n = n.
Proof.
  intros Hn. unfold Human.to_float.
  assert (N.size n <= 53)%N as Hs.
  { destruct (decide (n = 0%N)) as [->|Hz]; [done|].
    rewrite N.size_log2 by done.
    apply N.le_succ_l, N.log2_lt_pow2; [lia|done]. }
  apply N.leb_le in Hs. by rewrite Hs.
Qed.

Lemma hundredths_whole n : Human.hundredths n 1 = (100 * n)%N.
Proof.
  unfold Human.hundredths. rewrite N.div_1_r, N.mod_1_r. simpl. done.
Qed.

Lemma hundredths_lower n den :
  (0 < den)%N → (den <= n)%N → (100 <= Human.hundredths n den)%N.
Proof.
  intros Hd Hn. unfold Human.hundredths.
  assert (100 <= 100 * n / den)%N as Hq.
  { apply N.div_le_lower_bound; lia. }
  destruct (_ || _); lia.
Qed.

Lemma hundredths_upper n den :
  (0 < den)%N → (n < 1024 * den)%N → (Human.hundredths n den <= 102400)%N.
Proof.
  intros Hd Hn. unfold Human.hundredths.
  assert (100 * n / den < 102400)%N as Hq.
  { apply N.Div0.div_lt_upper_bound; lia. }
  destruct (_ || _); lia.
Qed.

(** X15: below 1024 the size is shown as it is, with [.00] and the unit
    [B]. *)
Theorem format_bytes_small n :
  (n < 1024)%N → Human.format_bytes n = Some (pretty n +:+ ".00 B").
Proof.
  intros Hn. unfold Human.format_bytes.
  apply N.ltb_lt in Hn. rewrite Hn. unfold Human.render.
  rewrite hundredths_whole.
  replace (100 * n / 100)%N with n by (rewrite N.mul_comm, N.div_mul; lia).
  replace ((100 * n) mod 100)%N with 0%N
    by (rewrite N.mul_comm, N.Div0.mod_mul; lia).
  replace ((100 * n) mod 10)%N with 0%N.
  - done.
  - replace (100 * n)%N with (10 * n * 10)%N by lia.
    by rewrite N.Div0.mod_mul.
Qed.

Lemma format_bytes_small_witness :
  Human.format_bytes 1023 = Some (pretty 1023%N +:+ ".00 B").
Proof. apply (format_bytes_small 1023). reflexivity. Defined.

(** X16: for a size below 2^53 the detour through floating point loses
    nothing: from 1024^k on, and below 1024^(k+1) for k < 5, the size is
    shown divided by 1024^k, rounded to the nearest hundredth (a tie to the
    even one), with the k-th unit; the number shown is at least 1.00 and,
    for the units below PB, at most 1024.00. *)
Theorem format_bytes_by_magnitude (k : nat) (n : N) :
  1 ≤ k ≤ 5 →
  (1024 ^ N.of_nat k <= n)%N →
  (n < 2 ^ 53)%N →
  (k < 5 → (n < 1024 ^ N.of_nat (S k))%N) →
  Human.format_bytes n
    = Some (Human.render n (1024 ^ N.of_nat k) (Human.unit_of k)) ∧
  (100 <= Human.hundredths n (1024 ^ N.of_nat k))%N ∧
  (k < 5 → (Human.hundredths n (1024 ^ N.of_nat k) <= 102400)%N).
Proof.
  intros Hk Hlo Hfl Hhi.
  assert (0 < 1024 ^ N.of_nat k)%N as Hpos by (apply N.neq_0_lt_0, N.pow_nonzero; lia).
  split; [|split].
  - unfold Human.format_bytes. rewrite to_float_exact by done.
    assert (1024 <= 1024 ^ N.of_nat k)%N as H1.
    { replace 1024%N with (1024 ^ 1)%N at 1 by reflexivity.
      apply N.pow_le_mono_r; lia. }
    rewrite (proj2 (N.ltb_ge n 1024)) by lia.
    assert (n < 2 ^ 1024)%N as Hbig.
    { eapply N.lt_trans; [exact Hfl|]. by apply N.ltb_lt. }
    rewrite (proj2 (N.leb_gt (2 ^ 1024) n)) by done.
    destruct k as [|[|[|[|[|[|k]]]]]]; try lia;
      cbn [N.of_nat Pos.of_succ_nat Pos.succ] in *; cbn [Human.unit_of].
    + specialize (Hhi ltac:(lia)).
      by rewrite (proj2 (N.ltb_lt n (1024 ^ 2))) by done.
    + specialize (Hhi ltac:(lia)).
      rewrite (proj2 (N.ltb_ge n (1024 ^ 2))) by done.
      by rewrite (proj2 (N.ltb_lt n (1024 ^ 3))) by done.
    + specialize (Hhi ltac:(lia)).
      assert (1024 ^ 2 <= 1024 ^ 3)%N by (by apply N.leb_le).
      rewrite (proj2 (N.ltb_ge n (1024 ^ 2))) by lia.
      rewrite (proj2 (N.ltb_ge n (1024 ^ 3))) by done.
      by rewrite (proj2 (N.ltb_lt n (1024 ^ 4))) by done.
    + specialize (Hhi ltac:(lia)).
      assert (1024 ^ 2 <= 1024 ^ 4)%N by (by apply N.leb_le).
      assert (1024 ^ 3 <= 1024 ^ 4)%N by (by apply N.leb_le).
      rewrite (proj2 (N.ltb_ge n (1024 ^ 2))) by lia.
      rewrite (proj2 (N.ltb_ge n (1024 ^ 3))) by lia.
      rewrite (proj2 (N.ltb_ge n (1024 ^ 4))) by done.
      by rewrite (proj2 (N.ltb_lt n (1024 ^ 5))) by done.
    + assert (1024 ^ 2 <= 1024 ^ 5)%N by (by apply N.leb_le).
      assert (1024 ^ 3 <= 1024 ^ 5)%N by (by apply N.leb_le).
      assert (1024 ^ 4 <= 1024 ^ 5)%N by (by apply N.leb_le).
      rewrite (proj2 (N.ltb_ge n (1024 ^ 2))) by lia.
      rewrite (proj2 (N.ltb_ge n (1024 ^ 3))) by lia.
      rewrite (proj2 (N.ltb_ge n (1024 ^ 4))) by lia.
      by rewrite (proj2 (N.ltb_ge n (1024 ^ 5))) by done.
  - by apply hundredths_lower.
  - intros Hk5. apply hundredths_upper; [done|].
    specialize (Hhi Hk5).
    replace (N.of_nat (S k)) with (N.succ (N.of_nat k)) in Hhi by lia.
    by rewrite N.pow_succ_r' in Hhi.
Qed.

Lemma format_bytes_by_magnitude_witness :
  Human.format_bytes 1048575
    = Some (Human.render 1048575 (1024 ^ N.of_nat 1) (Human.unit_of 1)) ∧
  (100 <= Human.hundredths 1048575 (1024 ^ N.of_nat 1))%N ∧
  (1 < 5 → (Human.hundredths 1048575 (1024 ^ N.of_nat 1) <= 102400)%N).
Proof.
  apply (format_bytes_by_magnitude 1 1048575).
  - lia.
  - vm_compute. discriminate.
  - reflexivity.
  - intros _. reflexivity.
Defined.

(** ** Each file is walked once *)















(** ** Torrents that do not bear on the result *)

Lemma live_paths_perm ts1 ts2 : ts1 ≡ₚ ts2 → live_paths ts1 = live_paths ts2.
Proof.
  induction 1 as [|t ts1 ts2 _ IH|t1 t2 ts|ts1 ts2 ts3 _ IH1 _ IH2].
  - done.
  - rewrite !live_paths_cons. by rewrite IH.
  - rewrite !live_paths_cons. set_solver.
  - by rewrite IH1.
Qed.

Lemma torrents_halt_perm ts1 ts2 : ts1 ≡ₚ ts2 → torrents_halt ts1 = torrents_halt ts2.
Proof.
  unfold torrents_halt.
  induction 1 as [|t ts1 ts2 _ IH|t1 t2 ts|ts1 ts2 ts3 _ IH1 _ IH2]; simpl.
  - done.
  - by rewrite IH.
  - by destruct (torrent_halts t1), (torrent_halts t2).
  - by rewrite IH1.
Qed.

(** X18: the order in which the daemon lists the torrents has no bearing
    on the orphans: two answers that hold the same torrents make the scan
    hang alike or return alike, with the same list and the same total, and
    with a list the same lines printed, up to their order. *)
Theorem torrent_order_is_irrelevant encodes ts1 ts2 d tg :
  ts1 ≡ₚ ts2 →
  match scan_torrents encodes (Some ts1) d tg,
        scan_torrents encodes (Some ts2) d tg with
  | Hangs, Hangs => True
  | Returns (res1, out1), Returns (res2, out2) =>
      res1 = res2 ∧ (is_Some res1 → out1 ≡ₚ out2)
  | _, _ => False
  end.
Proof.
  intros Hp.
  pose proof (torrents_halt_perm ts1 ts2 Hp) as Hh.
  pose proof (live_paths_perm ts1 ts2 Hp) as Hl.
  destruct (torrents_halt ts1) eqn:H1.
  - destruct (warnings_print encodes (live_paths ts1) (walk_target d tg)) eqn:Hpr.
    + rewrite (scan_torrents_halts encodes ts1), (scan_torrents_halts encodes ts2)
        by (by rewrite <- ?Hl).
      rewrite <- Hl. split; [done|]. intros _.
      apply Permutation_app; [|done].
      apply Permutation_map. unfold failed_torrents.
      apply Permutation_map. by rewrite Hp.
    + destruct (scan_torrents_aborts encodes ts1 d tg H1 Hpr) as [m1 ->].
      destruct (scan_torrents_aborts encodes ts2 d tg) as [m2 ->];
        [done|by rewrite <- Hl|].
      split; [done|]. by intros [? ?].
  - by rewrite !scan_torrents_hangs.
Qed.

Lemma torrent_order_is_irrelevant_witness :
  ∃ found size out1 out2,
    scan_torrents Sample.stdout (Some [Sample.movie; Sample.broken; Sample.notes])
      "/dl/" (Directory Sample.nested) = Returns (Some (found, size), out1) ∧
    scan_torrents Sample.stdout (Some [Sample.notes; Sample.movie; Sample.broken])
      "/dl/" (Directory Sample.nested) = Returns (Some (found, size), out2) ∧
    out1 ≡ₚ out2.
Proof.
  pose proof (torrent_order_is_irrelevant Sample.stdout
                [Sample.movie; Sample.broken; Sample.notes]
                [Sample.notes; Sample.movie; Sample.broken]
                "/dl/" (Directory Sample.nested)) as H.
  assert (scan_torrents Sample.stdout
            (Some [Sample.movie; Sample.broken; Sample.notes])
            "/dl/" (Directory Sample.nested)
          = Returns (Some ([("/dl/movie/b.nfo", 50%N); ("/dl/other/dl/z", 0%N)],
                           50%N),
                     [WarnTorrentFiles "broken"; WarnAccess "/dl/other/dl/z"]))
    as E1 by (vm_compute; reflexivity).
  rewrite E1 in *.
  destruct (scan_torrents Sample.stdout
              (Some [Sample.notes; Sample.movie; Sample.broken])
              "/dl/" (Directory Sample.nested)) as [|[res2 out2]].
  - destruct H. symmetry.
    apply (Permutation_cons_append [Sample.movie; Sample.broken] Sample.notes).
  - destruct H as [<- Hout].
    + symmetry.
      apply (Permutation_cons_append [Sample.movie; Sample.broken] Sample.notes).
    + eexists _, _, _, _. split; [done|]. split; [done|]. by apply Hout.
Defined.

Lemma filter_keeps_all {A} (P : A → Prop) `{!∀ x, Decision (P x)} (l : list A) :
  (∀ x, x ∈ l → P x) → filter P l = l.
Proof.
  induction l as [|x l IH]; intros Hall; [done|].
  rewrite filter_cons_True by (apply Hall; left). f_equal.
  apply IH. intros y Hy. apply Hall. by right.
Qed.

Lemma warnings_print_elsewhere encodes (A B : gset string) l :
  (∀ p, p ∈ A → p ∉ l.*1) →
  warnings_print encodes (A ∪ B) l = warnings_print encodes B l.
Proof.
  intros Hout. induction l as [|[p sz] l IH]; [done|].
  rewrite !warnings_print_cons. rewrite IH.
  2:{ intros q Hq Hin. apply (Hout q Hq). rewrite fmap_cons. by right. }
  f_equal. destruct sz; [done|]. simpl. f_equal.
  assert (p ∉ A) as Hp.
  { intros Hp. apply (Hout p Hp). rewrite fmap_cons. left. }
  destruct (decide (p ∈ B)).
  - rewrite !bool_decide_eq_true_2 by set_solver. done.
  - rewrite !bool_decide_eq_false_2 by set_solver. done.
Qed.

(** X19: a torrent on which the loop over the parents returns and none of
    whose joined paths is a walked path (its save path lies elsewhere, or
    its files are not on disk) changes nothing: with it the scan hangs,
    gives up or returns as without it, with the same orphan list and the
    same total. *)
Theorem torrent_elsewhere_changes_nothing encodes ts1 t ts2 d tg :
  torrent_halts t = true →
  (∀ p, p ∈ torrent_paths t → p ∉ (walk_target d tg).*1) →
  match scan_torrents encodes (Some (ts1 ++ ts2)) d tg,
        scan_torrents encodes (Some (ts1 ++ t :: ts2)) d tg with
  | Hangs, Hangs => True
  | Returns (res, _), Returns (res', _) => res' = res
  | _, _ => False
  end.
Proof.
  intros Ht Hout.
  assert (torrents_halt (ts1 ++ t :: ts2) = torrents_halt (ts1 ++ ts2)) as Hh.
  { rewrite !torrents_halt_app. simpl. by rewrite Ht. }
  assert (live_paths (ts1 ++ t :: ts2) = torrent_paths t ∪ live_paths (ts1 ++ ts2))
    as Hl.
  { rewrite !live_paths_app, live_paths_cons. set_solver. }
  assert (warnings_print encodes (live_paths (ts1 ++ t :: ts2)) (walk_target d tg)
          = warnings_print encodes (live_paths (ts1 ++ ts2)) (walk_target d tg))
    as Hw.
  { rewrite Hl. by apply warnings_print_elsewhere. }
  destruct (torrents_halt (ts1 ++ ts2)) eqn:H.
  - destruct (warnings_print encodes (live_paths (ts1 ++ ts2)) (walk_target d tg))
      eqn:Hpr.
    + rewrite (scan_torrents_halts encodes (ts1 ++ ts2)),
        (scan_torrents_halts encodes (ts1 ++ t :: ts2)) by done.
      rewrite Hl.
      assert (orphans_of (torrent_paths t ∪ live_paths (ts1 ++ ts2))
                (walk_target d tg)
              = orphans_of (live_paths (ts1 ++ ts2)) (walk_target d tg)) as ->;
        [|done].
      rewrite orphans_of_union. apply filter_keeps_all.
      intros e He Hin. apply (Hout _ Hin).
      apply (elem_of_orphans_of (live_paths (ts1 ++ ts2))).
      apply list_elem_of_fmap. by exists e.
    + destruct (scan_torrents_aborts encodes (ts1 ++ ts2) d tg H Hpr) as [m1 ->].
      by destruct (scan_torrents_aborts encodes (ts1 ++ t :: ts2) d tg Hh Hw)
        as [m2 ->].
  - by rewrite !scan_torrents_hangs.
Qed.

Lemma torrent_elsewhere_changes_nothing_witness :
  ∃ out',
    scan_torrents Sample.stdout
      (Some ([Sample.movie] ++ Torrent "far" "/mnt" (Some ["x/y.iso"]) :: []))
      "/dl/" (Directory Sample.nested)
    = Returns (Some ([("/dl/movie/b.nfo", 50%N); ("/dl/other/c.txt", 200%N);
                      ("/dl/other/dl/z", 0%N)], 250%N), out').
Proof.
  assert (∀ p, p ∈ torrent_paths (Torrent "far" "/mnt" (Some ["x/y.iso"])) →
               p ∉ (walk_target "/dl/" (Directory Sample.nested)).*1) as Hout.
  { intros p Hp.
    assert (p = "/mnt/x/y.iso") as ->.
    { apply elem_of_list_to_set in Hp. simpl in Hp.
      by apply list_elem_of_singleton in Hp. }
    apply (bool_decide_unpack _). vm_compute. exact I. }
  pose proof (torrent_elsewhere_changes_nothing Sample.stdout [Sample.movie]
                (Torrent "far" "/mnt" (Some ["x/y.iso"])) []
                "/dl/" (Directory Sample.nested) eq_refl Hout) as H.
  assert (scan_torrents Sample.stdout (Some ([Sample.movie] ++ [])) "/dl/"
            (Directory Sample.nested)
          = Returns (Some ([("/dl/movie/b.nfo", 50%N); ("/dl/other/c.txt", 200%N);
                            ("/dl/other/dl/z", 0%N)], 250%N),
                     [WarnAccess "/dl/other/dl/z"])) as E
    by (vm_compute; reflexivity).
  rewrite E in H.
  destruct (scan_torrents Sample.stdout _ "/dl/" (Directory Sample.nested))
    as [|[res' out']]; [done|].
  subst res'. by exists out'.
Defined.
